(** * HiCAssembler: the scaffold manager ([hicassembler/Scaffolds.py])

    A shallow embedding of the [Scaffolds] class: the path graph that
    orders the bins of a Hi-C matrix into scaffolds, the length filter,
    the N50 statistic, the flank partition and bin merging, the
    nearest-neighbour joining pass and the edge checks.

    Conventions.
    - Bin and node ids are [nat]; offsets and lengths are [Z].
    - The source is Python 2: [len(path)/2] is integer division and the
      variable of a list comprehension stays bound in the enclosing
      function after the comprehension has run.
    - [flank_length * 1.25], [flank_length * 0.75] and the matrix entries
      are floats in the source; they are rationals here.  1.25 and 0.75
      are dyadic, so for integer lengths below 2^50 the float products
      and comparisons are exact and agree with the rational ones.
    - Path lengths are Python integers; [compute_N50] puts them into
      an int64 numpy array and compares a running sum with a float:
      both are modelled, with the wrap-around and the rounding written
      out.
    - A breakpoint of the source ([import ipdb; ipdb.set_trace()])
      hands control to a debugger; what comes back is given by the
      environment, a [debugger].
    - Python exceptions are values of [exn]; a method that can raise
      returns a [result]. *)

From Stdlib Require Import String.
From Stdlib Require Import List ZArith QArith Lia Bool Arith.
From Stdlib Require Import Orders Sorting.Mergesort Sorting.Sorted Sorting.Permutation.
From Equations Require Import Equations.
Import Corelib.Init.Datatypes.
Import ListNotations.

Open Scope Z_scope.

(** ** Exceptions and results *)

Inductive exn : Type :=
| HiCAssemblerException (message : string)
| AssertionError
| NameError (name : string)
| IndexError
| KeyError (key : nat)
| InvalidEdge
| OverflowError
| ImportError (name : string)
| BdbQuit.

Inductive result (A : Type) : Type :=
| Ok (a : A)
| Raise (e : exn).
Arguments Ok {A} a.
Arguments Raise {A} e.

Definition bind {A B} (r : result A) (k : A -> result B) : result B :=
  match r with
  | Ok a => k a
  | Raise e => Raise e
  end.

Notation "x <- r ;; k" := (bind r (fun x => k))
  (at level 61, r at next level, right associativity).
Notation "' pat <- r ;; k" := (bind r (fun x => match x with pat => k end))
  (at level 61, pat pattern, r at next level, right associativity).

Definition raises {A} (r : result A) : Prop := exists e, r = Raise e.

Fixpoint mapM {A B} (f : A -> result B) (l : list A) : result (list B) :=
  match l with
  | [] => Ok []
  | a :: l' => b <- f a ;; bs <- mapM f l' ;; Ok (b :: bs)
  end.

(** ** Python list and number helpers *)

Definition sumZ (l : list Z) : Z := fold_right Z.add 0 l.

Definition mem (x : nat) (l : list nat) : bool := existsb (Nat.eqb x) l.

(** [l[0]] and [l[-1]]: IndexError on the empty list. *)
Definition first_item {A} (l : list A) : result A :=
  match l with
  | [] => Raise IndexError
  | a :: _ => Ok a
  end.

Definition last_item {A} (l : list A) : result A :=
  match rev l with
  | [] => Raise IndexError
  | a :: _ => Ok a
  end.

(** [l[i]] for a non-negative index. *)
Definition item {A} (l : list A) (i : nat) : result A :=
  match nth_error l i with
  | Some a => Ok a
  | None => Raise IndexError
  end.

Definition Qlt_bool (a b : Q) : bool := negb (Qle_bool b a).

(** ** Breakpoints *)

(** What the process finds when it reaches [import ipdb;
    ipdb.set_trace()]: the package [ipdb] is not installed, or the
    debugger opens and the session is ended by continuing the program
    or by quitting. *)
Inductive debugger : Type :=
| NotInstalled
| Continue
| Quit.

(** [import ipdb; ipdb.set_trace()]: ImportError without the package;
    a session that is continued returns to the program without having
    changed it; a session that is quit raises [bdb.BdbQuit]. *)
Definition set_trace (ipdb : debugger) : result unit :=
  match ipdb with
  | NotInstalled => Raise (ImportError "ipdb")
  | Continue => Ok tt
  | Quit => Raise BdbQuit
  end.

(** ** numpy integers and floats *)

(** The values of a numpy array of dtype [int] (int64). *)
Definition in_int64 (z : Z) : bool := (- 2 ^ 63 <=? z) && (z <? 2 ^ 63).

(** int64 arithmetic wraps around. *)
Definition wrap64 (z : Z) : Z := (z + 2 ^ 63) mod 2 ^ 64 - 2 ^ 63.

(** [np.fromiter(iterable, int)]: a Python integer that does not fit
    into int64 raises OverflowError. *)
Definition fromiter_int (l : list Z) : result (list Z) :=
  if forallb in_int64 l then Ok l else Raise OverflowError.

(** [float(n)] for an int64 [n], and the conversion numpy applies to an
    int64 that is compared with a float: the double nearest to [n],
    ties to the even significand of 53 bits.  Such a double is an
    integer, and integers up to 2^53 in absolute value are doubles. *)
Definition float_of_int64 (n : Z) : Z :=
  let a := Z.abs n in
  if a <? 2 ^ 53 then n
  else
    let e := Z.log2 a - 52 in
    let q := a / 2 ^ e in
    let r := a mod 2 ^ e in
    let half := 2 ^ (e - 1) in
    let q := if (half <? r) || ((r =? half) && Z.odd q) then q + 1 else q in
    Z.sgn n * (q * 2 ^ e).

(** ** The flank partition ([Scaffolds.get_flanks]) *)

Section Flanks.

(** [self.contig_G.node[x]['length']], the length attribute of a node;
    [get_flanks] copies it into the dict [path_length] for the members
    of the path it is given. *)
Variable path_length : nat -> Z.

Section PathFlank.
Variables tolerance_min tolerance_max : Q.

(** The variable [x] that the generator expression of
    [_get_path_flank] reads.  It is not bound in [_get_path_flank]:
    it is the variable of the list comprehension that builds
    [path_length] in [get_flanks], which is left holding the last
    member of the path. *)
Variable x : nat.

(** The loop of [_get_path_flank], with [flank] the list collected
    so far and [_path] what remains to be visited.
<<
    for n in _path:
        flank_sum = sum(path_length[x] for n in flank)
        if flank_sum > tolerance_max: break
        elif tolerance_min <= flank_sum <= tolerance_max: break
        flank.append(n)
>> *)
Fixpoint _get_path_flank_loop (flank _path : list nat) : list nat :=
  match _path with
  | [] => flank
  | n :: rest =>
      let flank_sum := inject_Z (sumZ (map (fun _ => path_length x) flank)) in
      if Qlt_bool tolerance_max flank_sum then flank
      else if Qle_bool tolerance_min flank_sum && Qle_bool flank_sum tolerance_max
           then flank
           else _get_path_flank_loop (flank ++ [n]) rest
  end.

Definition _get_path_flank (_path : list nat) : list nat :=
  _get_path_flank_loop [] _path.

End PathFlank.

(** [sum(path_length.values())]: [path_length] is a dict, so a node
    that occurs twice in the path is counted once. *)
Definition path_length_sum (path : list nat) : Z :=
  sumZ (map path_length (nodup Nat.eq_dec path)).

(** The two outer flanks of a path that is long enough, from the two
    calls of [_get_path_flank] to the fallback that halves the path
    by index ([len(path)/2] is integer division). *)
Definition outer_flanks (path : list nat) (flank_length : Z)
  : list nat * list nat :=
  let tolerance_max := (inject_Z flank_length * 1.25)%Q in
  let tolerance_min := (inject_Z flank_length * 0.75)%Q in
  let x := last path 0%nat in
  let left_flank := _get_path_flank tolerance_min tolerance_max x path in
  let right_flank :=
    rev (_get_path_flank tolerance_min tolerance_max x (rev path)) in
  (* check if the flanks overlap *)
  let over := filter (fun y => mem y right_flank) left_flank in
  let left_flank :=
    if negb (length over =? 0)%nat
    then filter (fun y => negb (mem y over)) left_flank
    else left_flank in
  if ((length left_flank =? 0) || (length right_flank =? 0))%nat
  then
    let path_half := (length path / 2)%nat in
    (firstn path_half path, skipn path_half path)
  else (left_flank, right_flank).

(** [[x for x in path if x not in left_flank + right_flank]] *)
Definition interior_of (path left_flank right_flank : list nat) : list nat :=
  filter (fun y => negb (mem y (left_flank ++ right_flank))) path.

(** [get_flanks(path, flank_length, recursive_repetitions, counter)].
    The recursion ends because [counter] grows towards
    [recursive_repetitions].  The closing try block of the source, which
    stops in a debugger when a flank is empty and swallows every
    exception, is left out. *)
Equations? get_flanks (path : list nat) (flank_length : Z)
    (recursive_repetitions counter : nat) : list (list nat)
    by wf (recursive_repetitions - counter)%nat lt :=
  get_flanks path flank_length recursive_repetitions counter0
    with le_lt_dec (counter0 + 1) recursive_repetitions := {
    | right _ => []
    | left _ =>
        let counter := (counter0 + 1)%nat in
        let tolerance_min := (inject_Z flank_length * 0.75)%Q in
        if (length path =? 1)%nat then
          if Qlt_bool tolerance_min (inject_Z (path_length (hd 0%nat path)))
             || (counter =? 1)%nat
          then [path] else []
        else if Qlt_bool (inject_Z (path_length_sum path))
                         (2 * inject_Z flank_length * 0.75)%Q then
          if (counter =? 1)%nat then
            let path_half := (length path / 2)%nat in
            [firstn path_half path; skipn path_half path]
          else [path]
        else
          let left_flank := fst (outer_flanks path flank_length) in
          let right_flank := snd (outer_flanks path flank_length) in
          let interior := interior_of path left_flank right_flank in
          let interior :=
            if negb (length interior =? 0)%nat
            then get_flanks interior flank_length recursive_repetitions counter
            else [] in
          (if negb (length left_flank =? 0)%nat then [left_flank] else [])
          ++ interior
          ++ (if negb (length right_flank =? 0)%nat then [right_flank] else [])
    }.
Proof. lia. Qed.

End Flanks.


(** ** The contact matrix provider ([hicexplorer.HiCMatrix])

    An external library; the embedding keeps the two attributes that
    [Scaffolds] reads and replaces: the matrix and the bin metadata
    [cut_intervals], a list of tuples (label, start, end, coverage). *)

Module Interval.
Record t : Type := make
  { label : string; start : Z; end_ : Z; coverage : Q }.
End Interval.

Definition matrix_t : Type := list (list Q).

Record hiCMatrix : Type :=
  { matrix : matrix_t; cut_intervals : list Interval.t }.

(** [m.shape[0]] *)
Definition dimension (m : matrix_t) : nat := length m.

(** [m[rows, :]] and [m[:, cols]], IndexError for an index out of range. *)
Definition take_rows (m : matrix_t) (rows : list nat) : result matrix_t :=
  mapM (item m) rows.

Definition take_cols (m : matrix_t) (cols : list nat) : result matrix_t :=
  mapM (fun row => mapM (item row) cols) m.

(** ** The path graph ([hicassembler.PathGraph]) *)

Module Attr.
(** The attributes [_init_path_graph] stores on a node. *)
Record t : Type := make
  { name : string; start : Z; end_ : Z; coverage : Q; length : Z }.
End Attr.

Module PathGraph.

(** Modelled from the spec: the class [PathGraph] of
    [hicassembler/PathGraph.py] is not among the sources.  The spec (2,
    3, 4.6, 6) describes it as a graph over bin indices in which every
    node has at most one predecessor and one successor, so that the
    nodes form simple chains; it stores node attributes, inserts paths,
    inserts edges after a validity check, looks up the full path of a
    node and iterates over the nodes in insertion order.  The model
    keeps the nodes with their attributes in insertion order and the
    chains as lists of node ids. *)
Record t : Type :=
  { node : list (nat * Attr.t); path : list (list nat) }.

(** Modelled from the spec: [PathGraph()], the graph without nodes. *)
Definition empty : t := {| node := []; path := [] |}.

(** Modelled from the spec: the nodes in iteration order
    ([for v in G]), which is insertion order (spec 9). *)
Definition nodes (g : t) : list nat := map fst (node g).

(** Modelled from the spec: [G.node[v]], the attributes of a node. *)
Definition node_attr (g : t) (v : nat) : result Attr.t :=
  match find (fun e => Nat.eqb (fst e) v) (node g) with
  | Some e => Ok (snd e)
  | None => Raise (KeyError v)
  end.

(** Modelled from the spec: [add_node(id, attrs)].  A new node is a
    chain of its own; adding an existing id replaces its attributes. *)
Definition add_node (v : nat) (a : Attr.t) (g : t) : t :=
  if mem v (nodes g)
  then {| node := map (fun e => if Nat.eqb (fst e) v then (v, a) else e) (node g);
          path := path g |}
  else {| node := node g ++ [(v, a)]; path := path g ++ [[v]] |}.

(** Modelled from the spec: [add_path(ordered_ids)] connects the ids
    as one chain, in the order given.  The ids leave the chains they
    were in before. *)
Definition add_path (p : list nat) (g : t) : t :=
  {| node := node g;
     path := filter (fun q => negb (Nat.eqb (Datatypes.length q) 0))
               (map (filter (fun v => negb (mem v p))) (path g)) ++ [p] |}.

(** Modelled from the spec: [G[v]], the full path that contains [v]. *)
Definition getitem (g : t) (v : nat) : result (list nat) :=
  match find (mem v) (path g) with
  | Some p => Ok p
  | None => Raise (KeyError v)
  end.

(** Modelled from the spec: the node that follows [v] on the chain
    [p], if any. *)
Fixpoint next_on (v : nat) (p : list nat) : list nat :=
  match p with
  | a :: (b :: _) as rest => if Nat.eqb a v then [b] else next_on v rest
  | _ => []
  end.

(** Modelled from the spec: [successors(id)], the node after [v] on
    its chain; at most one. *)
Definition successors (g : t) (v : nat) : list nat :=
  match find (mem v) (path g) with
  | Some p => next_on v p
  | None => []
  end.

(** Modelled from the spec: [predecessors(id)], the node before [v]
    on its chain. *)
Definition predecessors (g : t) (v : nat) : list nat :=
  match find (mem v) (path g) with
  | Some p => next_on v (rev p)
  | None => []
  end.

(** Modelled from the spec: [has_edge(u, v)], the directed edge from
    [u] to its successor. *)
Definition has_edge (g : t) (u v : nat) : bool := mem v (successors g u).

(** Modelled from the spec: [degree(id)], the number of incident
    edges. *)
Definition degree (g : t) (v : nat) : nat :=
  (Datatypes.length (predecessors g v) + Datatypes.length (successors g v))%nat.

(** Modelled from the spec: the structural validity check of 4.6 that
    [add_edge] runs before it inserts: the edge must not exist in
    either direction, neither end may have degree 2, and two ends of
    degree 1 must not lie on the same path. *)
Definition valid_edge (g : t) (u v : nat) : bool :=
  negb (has_edge g u v || has_edge g v u)
  && negb (Nat.eqb (degree g u) 2 || Nat.eqb (degree g v) 2)
  && negb (Nat.eqb (degree g u) 1 && Nat.eqb (degree g v) 1
           && match getitem g u with Ok p => mem v p | Raise _ => false end).

(** Modelled from the spec: [add_edge(u, v)], which raises when the
    edge violates the invariant (the error the spec names InvalidEdge)
    and otherwise joins the chain that ends in [u] with the chain that
    starts in [v], turning a chain around where that is needed to make
    [v] the successor of [u]. *)
Definition add_edge (g : t) (u v : nat) : result t :=
  if negb (valid_edge g u v)
  then Raise InvalidEdge
  else
    path_u <- getitem g u ;;
    path_v <- getitem g v ;;
    if mem v path_u
    then Raise InvalidEdge
    else
      let path_u' := if Nat.eqb (last path_u u) u then path_u else rev path_u in
      let path_v' := if Nat.eqb (hd v path_v) v then path_v else rev path_v in
      Ok {| node := node g;
            path := map (fun q => if mem u q then path_u' ++ path_v' else q)
                      (filter (fun q => negb (mem v q)) (path g)) |}.

End PathGraph.

(** ** The scaffold manager *)

(** The attributes of [Scaffolds] that its methods read after
    construction: the matrix provider and the path graph. *)
Record Scaffolds : Type :=
  { hic : hiCMatrix; contig_G : PathGraph.t }.

(** [enumerate(l)] *)
Definition enumerate {A} (l : list A) : list (nat * A) :=
  combine (seq 0 (length l)) l.

(** [prev_label != label], where [prev_label] starts as None. *)
Definition label_differs (prev_label : option string) (label : string) : bool :=
  match prev_label with
  | None => true
  | Some l => negb (String.eqb l label)
  end.

(** One round of the loop of [_init_path_graph] on the graph, the run
    [contig_path] collected so far and [prev_label]. *)
Definition _init_path_graph_step
    (st : PathGraph.t * list nat * option string) (e : nat * Interval.t)
  : PathGraph.t * list nat * option string :=
  let '(G, contig_path, prev_label) := st in
  let '(idx, interval) := e in
  let label := Interval.label interval in
  let start := Interval.start interval in
  let end_ := Interval.end_ interval in
  let coverage := Interval.coverage interval in
  let length_ := end_ - start in
  let attr := Attr.make label start end_ coverage length_ in
  let G := PathGraph.add_node idx attr G in
  let '(G, contig_path) :=
    if label_differs prev_label label
    then (if (1 <? length contig_path)%nat
          then PathGraph.add_path contig_path G else G, [])
    else (G, contig_path) in
  (G, contig_path ++ [idx], Some label).

Definition _init_path_graph (self : Scaffolds) : Scaffolds :=
  let '(G, contig_path, _) :=
    fold_left _init_path_graph_step
      (enumerate (cut_intervals (hic self))) (contig_G self, [], None) in
  let G := if (1 <? length contig_path)%nat
           then PathGraph.add_path contig_path G else G in
  {| hic := hic self; contig_G := G |}.

(** [Scaffolds(hic_matrix)] *)
Definition __init__ (hic_matrix : hiCMatrix) : Scaffolds :=
  _init_path_graph {| hic := hic_matrix; contig_G := PathGraph.empty |}.

(** The loop of [get_all_paths]: the paths it yields, in order. *)
Fixpoint get_all_paths_loop (G : PathGraph.t) (vs seen : list nat)
  : result (list (list nat)) :=
  match vs with
  | [] => Ok []
  | v :: rest =>
      p <- PathGraph.getitem G v ;;
      if mem v seen
      then get_all_paths_loop G rest (seen ++ p)
      else ps <- get_all_paths_loop G rest (seen ++ p) ;; Ok (p :: ps)
  end.

Definition get_all_paths (self : Scaffolds) : result (list (list nat)) :=
  get_all_paths_loop (contig_G self) (PathGraph.nodes (contig_G self)) [].

(** [sum([self.contig_G.node[x]['length'] for x in path])] *)
Definition path_sum (self : Scaffolds) (path : list nat) : result Z :=
  ls <- mapM (fun x => a <- PathGraph.node_attr (contig_G self) x ;;
                       Ok (Attr.length a)) path ;;
  Ok (sumZ ls).

Definition get_paths_length (self : Scaffolds) : result (list Z) :=
  paths <- get_all_paths self ;;
  mapM (path_sum self) paths.

(** *** [remove_bins_by_size] *)

(** The loop that collects [to_keep] from the enumerated paths. *)
Fixpoint remove_bins_to_keep (self : Scaffolds) (min_length : Z)
    (paths : list (list nat)) (to_keep : list nat) : result (list nat) :=
  match paths with
  | [] => Ok to_keep
  | path :: paths' =>
      length_ <- path_sum self path ;;
      if min_length <? length_
      then remove_bins_to_keep self min_length paths' (to_keep ++ path)
      else remove_bins_to_keep self min_length paths' to_keep
  end.

(** [self.hic.update_matrix(new_matrix, new_cut_intervals)] *)
Definition update_matrix (h : hiCMatrix) (new_matrix : matrix_t)
    (new_cut_intervals : list Interval.t) : hiCMatrix :=
  {| matrix := new_matrix; cut_intervals := new_cut_intervals |}.

(** The method returns [self.hic]; the embedding returns the whole
    state after the call, of which [hic] is that value. *)
Definition remove_bins_by_size (self : Scaffolds) (min_length : Z)
  : result Scaffolds :=
  paths <- get_all_paths self ;;
  to_keep <- remove_bins_to_keep self min_length paths [] ;;
  if negb (length to_keep =? 0)%nat
  then
    rows <- take_rows (matrix (hic self)) to_keep ;;
    new_matrix <- take_cols rows to_keep ;;
    new_cut_intervals <- mapM (item (cut_intervals (hic self))) to_keep ;;
    let hic' := update_matrix (hic self) new_matrix new_cut_intervals in
    Ok (_init_path_graph {| hic := hic'; contig_G := PathGraph.empty |})
  else Ok self.

(** *** [compute_N50] *)

(** The order [np.sort] uses on the path lengths. *)
Module ZOrder := OTF_to_TTLB BinInt.Z.
Module ZSort := Sort ZOrder.

(** [np.cumsum] of an int64 array: the running sum is an int64 and
    wraps around. *)
Fixpoint cumsum_from (acc : Z) (l : list Z) : list Z :=
  match l with
  | [] => []
  | a :: l' => wrap64 (acc + a) :: cumsum_from (wrap64 (acc + a)) l'
  end.

Definition cumsum (l : list Z) : list Z := cumsum_from 0 l.

(** [for i in range(..): if test(i): break], as the value [i] holds when
    the loop is left; [cur] is the value it held before. *)
Fixpoint for_break (test : nat -> bool) (range : list nat) (cur : nat) : nat :=
  match range with
  | [] => cur
  | i :: range' => if test i then i else for_break test range' i
  end.

(** [compute_N50(min_length)].  [half_length] is
    [float(cumsum[-1]) / 2], a double halved, which is exact; in
    [cumsum[i] >= half_length] the int64 [cumsum[i]] is converted to a
    double before the comparison. *)
Definition compute_N50 (self : Scaffolds) (min_length : Z) : result Z :=
  lengths <- get_paths_length self ;;
  lengths <- fromiter_int lengths ;;
  let length_ := ZSort.sort lengths in
  if (length length_ =? 0)%nat
  then Raise (HiCAssemblerException "No paths. Can't compute N50")
  else
    let length_ := filter (fun l => min_length <? l) length_ in
    if (length length_ =? 0)%nat
    then Raise (HiCAssemblerException "No paths with length > {}. Can't compute N50")
    else
      let cumsum_ := cumsum length_ in
      let half_length := (inject_Z (float_of_int64 (last cumsum_ 0%Z)) / 2)%Q in
      let i := for_break (fun i => Qle_bool half_length
                                     (inject_Z (float_of_int64 (nth i cumsum_ 0))))
                 (seq 0 (length length_)) 0%nat in
      item length_ i.

(** *** [merge_to_size] *)

(** The names bound at module level in [Scaffolds.py]: its imports and
    its definitions. *)
Definition module_globals : list string :=
  [ "np"; "csr_matrix"; "logging"; "time"; "HiCMatrix"; "PathGraph";
    "HiCAssemblerException"; "reduce_matrix"; "iterativeCorrection"; "triu";
    "wraps"; "log"; "logit"; "Scaffolds"; "get_test_matrix" ]%string.

(** Reading a global name: NameError when the module does not bind it. *)
Definition global (name : string) : result unit :=
  if existsb (String.eqb name) module_globals
  then Ok tt else Raise (NameError name).

(** The length attribute of a node, as [get_flanks] holds it in the dict
    [path_length]; the lookups that can fail are made in
    [get_flanks_of]. *)
Definition node_length (self : Scaffolds) (x : nat) : Z :=
  match PathGraph.node_attr (contig_G self) x with
  | Ok a => Attr.length a
  | Raise _ => 0
  end.

(** [self.get_flanks(path, flank_length, recursive_repetitions)]:
    building [path_length] raises KeyError for a member of the path that
    is not a node; the recursive calls build it again for members of the
    same path. *)
Definition get_flanks_of (self : Scaffolds) (path : list nat) (flank_length : Z)
    (recursive_repetitions : nat) : result (list (list nat)) :=
  _ <- mapM (PathGraph.node_attr (contig_G self)) path ;;
  Ok (get_flanks (node_length self) path flank_length recursive_repetitions 0).

(** The first loop of [merge_to_size]: the flattened list of the flanks
    of all paths. *)
Fixpoint merge_paths_flatten (self : Scaffolds) (target_length : Z)
    (paths : list (list nat)) (paths_flatten : list (list nat))
  : result (list (list nat)) :=
  match paths with
  | [] => Ok paths_flatten
  | path :: paths' =>
      flanks_of_path <- get_flanks_of self path target_length 100 ;;
      merge_paths_flatten self target_length paths' (paths_flatten ++ flanks_of_path)
  end.

Definition reduce_groups (self : Scaffolds) (target_length : Z)
  : result (list (list nat)) :=
  paths <- get_all_paths self ;;
  merge_paths_flatten self target_length paths [].

(** The body of the second loop: the interval of the bin that replaces
    [sub_path].
<<
    if end < start:
        import ipdb; ipdb.set_trace()
    assert start < end
>> *)
Definition new_cut_interval (ipdb : debugger) (self : Scaffolds)
    (sub_path : list nat) : result Interval.t :=
  first_node <- first_item sub_path ;;
  last_node <- last_item sub_path ;;
  first_attr <- PathGraph.node_attr (contig_G self) first_node ;;
  let name := Attr.name first_attr in
  let start := Attr.start first_attr in
  last_attr <- PathGraph.node_attr (contig_G self) last_node ;;
  let end_ := Attr.end_ last_attr in
  _ <- (if end_ <? start then set_trace ipdb else Ok tt) ;;
  if negb (start <? end_)
  then Raise AssertionError
  else
    let coverage :=
      ((Attr.coverage first_attr + inject_Z (Attr.end_ last_attr)) / 2)%Q in
    Ok (Interval.make name start end_ coverage).

(** The exception that ends the second loop at a group whose end lies
    before its start: that of the breakpoint, or, once the debugger has
    been continued, that of the assertion. *)
Definition misordered_exn (ipdb : debugger) : exn :=
  match ipdb with
  | NotInstalled => ImportError "ipdb"
  | Continue => AssertionError
  | Quit => BdbQuit
  end.

(** What [merge_to_size] hands back: [None], [(None, None)] or
    [self.hic]. *)
Inductive merge_return : Type :=
| ReturnNone
| ReturnNoneNone
| ReturnHic (h : hiCMatrix).

Section Merge.

(** The routines of [hicexplorer] the method calls, each of which can
    raise: [reduce_matrix(matrix, groups, diagonal=True)], the first
    component of [iterativeCorrection(matrix, M=1000)], and
    [hic.save("data/merged_bins_corrected.h5")], which writes the
    provider to a file. *)
Variable reduce_matrix : matrix_t -> list (list nat) -> result matrix_t.
Variable iterativeCorrection : matrix_t -> result matrix_t.
Variable save : hiCMatrix -> result unit.

(** The debugger the breakpoint of the second loop meets. *)
Variable ipdb : debugger.

(** The call returns the state it leaves behind and the value handed
    back.  The decorator [logit] only logs. *)
Definition merge_to_size (self : Scaffolds) (target_length : Z)
  : result (Scaffolds * merge_return) :=
  paths_flatten <- reduce_groups self target_length ;;
  if (length paths_flatten =? 0)%nat
  then
    (* log.warn("[{}] Nothing to reduce.".format(inspect.stack()[0][3])) *)
    _ <- global "inspect" ;;
    Ok (self, ReturnNone)
  else
    new_cut_intervals <- mapM (new_cut_interval ipdb self) paths_flatten ;;
    let reduce_paths := paths_flatten in
    if (length reduce_paths <? 2)%nat
    then Ok (self, ReturnNoneNone)
    else
      reduced_matrix <- reduce_matrix (matrix (hic self)) reduce_paths ;;
      corrected_matrix <- iterativeCorrection reduced_matrix ;;
      let hic' := {| matrix := corrected_matrix;
                     cut_intervals := new_cut_intervals |} in
      let self' := _init_path_graph {| hic := hic'; contig_G := PathGraph.empty |} in
      _ <- save (hic self') ;;
      Ok (self', ReturnHic (hic self')).

End Merge.

(** *** [get_nearest_neighbors] *)

(** The stored entries (row, col, value) of
    [triu(matrix, k=1, format='coo')] after the entries at or below
    [confidence_score] were set to zero and the zeros eliminated, in
    row-major order.  A sparse matrix stores no zero entries. *)
Definition triu_entries (m : matrix_t) (confidence_score : Q)
  : list (nat * nat * Q) :=
  flat_map (fun '(row_id, row) =>
    flat_map (fun '(col_id, value) =>
      if negb (Qeq_bool value 0) && Qlt_bool confidence_score value
         && (row_id <? col_id)%nat
      then [(row_id, col_id, value)] else [])
      (enumerate row))
    (enumerate m).

Module nx.

(** [networkx.Graph], an external library: an undirected graph as the
    adjacency of each node; nodes and neighbours are kept in the order
    in which they were added. *)
Definition Graph : Type := list (nat * list nat).

Definition neighbors (G : Graph) (n : nat) : list nat :=
  match find (fun e => Nat.eqb (fst e) n) G with
  | Some e => snd e
  | None => []
  end.

Definition link (u v : nat) (G : Graph) : Graph :=
  if existsb (fun e => Nat.eqb (fst e) u) G
  then map (fun e => if Nat.eqb (fst e) u
                     then (u, if mem v (snd e) then snd e else snd e ++ [v])
                     else e) G
  else G ++ [(u, [v])].

(** [G.add_edge(u, v)] *)
Definition add_edge (G : Graph) (u v : nat) : Graph :=
  link v u (link u v G).

(** [G.degree(n)], for a graph without self loops. *)
Definition degree (G : Graph) (n : nat) : nat := length (neighbors G n).

End nx.

Definition set_contig_G (self : Scaffolds) (G : PathGraph.t) : Scaffolds :=
  {| hic := hic self; contig_G := G |}.

(** The last loop of [get_nearest_neighbors], over the nodes of the
    auxiliary graph.  It returns the state it leaves behind and whether
    it ended normally. *)
Fixpoint join_loop (G : nx.Graph) (flanks singletons : list nat)
    (nodes : list nat) (self : Scaffolds) (seen : list nat)
  : Scaffolds * result unit :=
  match nodes with
  | [] => (self, Ok tt)
  | node :: nodes' =>
      if (nx.degree G node =? 1)%nat && mem node flanks && negb (mem node seen)
      then
        match item (nx.neighbors G node) 0 with
        | Raise e => (self, Raise e)
        | Ok n0 =>
            (* try: add_edge  except: pass *)
            let self :=
              match PathGraph.add_edge (contig_G self) node n0 with
              | Ok g => set_contig_G self g
              | Raise _ => self
              end in
            join_loop G flanks singletons nodes' self (seen ++ [node; n0])
        end
      else if (nx.degree G node =? 2)%nat && mem node singletons
              && negb (mem node seen)
      then
        match item (nx.neighbors G node) 0 with
        | Raise e => (self, Raise e)
        | Ok n0 =>
            match PathGraph.add_edge (contig_G self) node n0 with
            | Raise e => (self, Raise e)
            | Ok g =>
                let self := set_contig_G self g in
                match item (nx.neighbors G node) 1 with
                | Raise e => (self, Raise e)
                | Ok n1 =>
                    match PathGraph.add_edge (contig_G self) node n1 with
                    | Raise e => (self, Raise e)
                    | Ok g =>
                        join_loop G flanks singletons nodes'
                          (set_contig_G self g) (seen ++ [node; n0; n1])
                    end
                end
            end
        end
      else join_loop G flanks singletons nodes' self seen
  end.

(** The classification of the ends of the paths. *)
Fixpoint flanks_and_singletons (paths : list (list nat))
    (flanks singletons : list nat) : list nat * list nat :=
  match paths with
  | [] => (flanks, singletons)
  | path :: paths' =>
      if (length path =? 1)%nat
      then flanks_and_singletons paths' flanks (singletons ++ path)
      else flanks_and_singletons paths'
             (flanks ++ [hd 0%nat path; last path 0%nat]) singletons
  end.

(** The method ends in a breakpoint, [import ipdb;ipdb.set_trace()]:
    when the last loop has ended normally, the outcome of the call is
    what the debugger gives back. *)
Definition get_nearest_neighbors (ipdb : debugger) (self : Scaffolds)
    (confidence_score : Q) : Scaffolds * result unit :=
  let matrix_ := triu_entries (matrix (hic self)) confidence_score in
  match get_all_paths self with
  | Raise e => (self, Raise e)
  | Ok paths =>
      let '(flanks, singletons) := flanks_and_singletons paths [] [] in
      let nodes := flanks ++ singletons in
      let G :=
        fold_left (fun G '(row_id, col_id, value) =>
                     if mem row_id nodes && mem col_id nodes
                     then nx.add_edge G row_id col_id else G)
          matrix_ [] in
      let '(self, outcome) := join_loop G flanks singletons (map fst G) self [] in
      (self, _ <- outcome ;; set_trace ipdb)
  end.

(** *** [has_edge] and [check_edge] *)

Definition has_edge (self : Scaffolds) (u v : nat) : bool :=
  PathGraph.has_edge (contig_G self) u v || PathGraph.has_edge (contig_G self) v u.

(** [for node in [u, v]: if self.contig_G.degree(node) == 2: raise ...] *)
Fixpoint check_free (self : Scaffolds) (nodes : list nat) : result unit :=
  match nodes with
  | [] => Ok tt
  | node :: nodes' =>
      if (PathGraph.degree (contig_G self) node =? 2)%nat
      then Raise (HiCAssemblerException "Edge not possible, not a flanking node")
      else check_free self nodes'
  end.

(** The method reads the graph and assigns nothing: the state it leaves
    behind is [self], returned next to the outcome. *)
Definition check_edge (self : Scaffolds) (u v : nat) : Scaffolds * result unit :=
  (self,
   if has_edge self u v
   then Raise (HiCAssemblerException "Edge already exists")
   else
     _ <- check_free self [u; v] ;;
     if (PathGraph.degree (contig_G self) u =? 1)%nat
        && (PathGraph.degree (contig_G self) v =? 1)%nat
     then
       path_u <- PathGraph.getitem (contig_G self) u ;;
       if mem v path_u
       then Raise (HiCAssemblerException "The edges form a closed loop.")
       else Ok tt
     else Ok tt).

(** ** The test matrix and the states of the docstrings *)

Definition matrix_add (a b : matrix_t) : matrix_t :=
  map (fun '(r, s) => map (fun '(x, y) => (x + y)%Q) (combine r s)) (combine a b).

Definition transpose (m : matrix_t) : matrix_t :=
  map (fun j => map (fun row => nth j row 0%Q) m) (seq 0 (length m)).

(** [get_test_matrix(cut_intervals)]; an empty or absent
    [cut_intervals] selects the default list. *)
Definition get_test_matrix (cut_intervals : list Interval.t) : hiCMatrix :=
  let upper : matrix_t :=
    map (map inject_Z)
      [ [1; 8;  5; 3; 0; 8];
        [0; 4; 15; 5; 1; 7];
        [0; 0;  0; 7; 2; 8];
        [0; 0;  0; 0; 1; 5];
        [0; 0;  0; 0; 0; 6];
        [0; 0;  0; 0; 0; 0] ] in
  let symmetric := matrix_add upper (transpose upper) in
  let cut_intervals :=
    match cut_intervals with
    | [] => [ Interval.make "c-0" 0 1 1; Interval.make "c-1" 0 1 1;
              Interval.make "c-2" 0 1 1; Interval.make "c-4" 0 1 1;
              Interval.make "c-4" 0 1 1 ]
    | _ => cut_intervals
    end in
  let n := length cut_intervals in
  {| matrix := map (firstn n) (firstn n symmetric);
     cut_intervals := cut_intervals |}.

(** The state of the docstring of [compute_N50]: path lengths
    20, 30, 10, 10, 10. *)
Definition N50_example : Scaffolds :=
  __init__ (get_test_matrix
    [ Interval.make "c-0" 0 10 1; Interval.make "c-0" 10 20 1;
      Interval.make "c-2" 0 30 1; Interval.make "c-3" 0 10 1;
      Interval.make "c-2" 20 30 1; Interval.make "c-3" 0 10 1 ]).

(** The state of the docstring of [remove_bins_by_size]: paths
    [0, 1, 2], [3, 4] and [5] of lengths 30, 20 and 10. *)
Definition remove_bins_example : Scaffolds :=
  __init__ (get_test_matrix
    [ Interval.make "c-0" 0 10 1; Interval.make "c-0" 10 20 1;
      Interval.make "c-0" 20 30 1; Interval.make "c-2" 0 10 1;
      Interval.make "c-2" 20 30 1; Interval.make "c-3" 0 10 1 ]).

(** The state of the docstring of [merge_to_size]: one contig of six
    bins of 10 bp. *)
Definition merge_example : Scaffolds :=
  __init__ (get_test_matrix
    [ Interval.make "c-0" 0 10 1; Interval.make "c-0" 10 20 1;
      Interval.make "c-0" 20 30 1; Interval.make "c-0" 30 40 1;
      Interval.make "c-0" 40 50 1; Interval.make "c-0" 50 60 1 ]).

(** The second state of the docstring of [get_flanks]: one contig of
    five bins of 10 bp. *)
Definition five_bins_example : Scaffolds :=
  __init__ (get_test_matrix
    [ Interval.make "c-0" 0 10 1; Interval.make "c-0" 10 20 1;
      Interval.make "c-0" 20 30 1; Interval.make "c-0" 30 40 1;
      Interval.make "c-0" 40 50 1 ]).

(** One contig of four bins of 10 bp whose first bin lies behind the
    others on the sequence. *)
Definition misordered_example : Scaffolds :=
  __init__ (get_test_matrix
    [ Interval.make "c-0" 50 60 1; Interval.make "c-0" 0 10 1;
      Interval.make "c-0" 10 20 1; Interval.make "c-0" 20 30 1 ]).

(** A manager over a matrix without bins. *)
Definition empty_example : Scaffolds :=
  __init__ {| matrix := []; cut_intervals := [] |}.

(** One contig of three bins of 10, 10 and 100 bp. *)
Definition uneven_example : Scaffolds :=
  __init__ (get_test_matrix
    [ Interval.make "c-0" 0 10 1; Interval.make "c-0" 10 20 1;
      Interval.make "c-0" 20 120 1 ]).

(** Four contigs of one bin each whose contacts above the threshold 0
    form the ring 0 - 1 - 2 - 3 - 0. *)
Definition ring_example : Scaffolds :=
  __init__
    {| matrix := map (map inject_Z)
                   [ [0; 9; 0; 9];
                     [9; 0; 9; 0];
                     [0; 9; 0; 9];
                     [9; 0; 9; 0] ];
       cut_intervals :=
         [ Interval.make "c-0" 0 10 1; Interval.make "c-1" 0 10 1;
           Interval.make "c-2" 0 10 1; Interval.make "c-3" 0 10 1 ] |}.

(** The orders in which the nodes of the auxiliary graph of
    [ring_example] can be visited, and the orders in which the two
    neighbours of each node can be listed: dict order is not fixed by
    the source. *)
Fixpoint insert_everywhere (a : nat) (l : list nat) : list (list nat) :=
  match l with
  | [] => [[a]]
  | b :: l' => (a :: l) :: map (cons b) (insert_everywhere a l')
  end.

Fixpoint orders (l : list nat) : list (list nat) :=
  match l with
  | [] => [[]]
  | a :: l' => flat_map (insert_everywhere a) (orders l')
  end.

Definition ring_adjacencies : list nx.Graph :=
  flat_map (fun n0 =>
    flat_map (fun n1 =>
      flat_map (fun n2 =>
        map (fun n3 => [(0, n0); (1, n1); (2, n2); (3, n3)]%nat)
          [[0; 2]; [2; 0]]%nat)
        [[1; 3]; [3; 1]]%nat)
      [[0; 2]; [2; 0]]%nat)
    [[1; 3]; [3; 1]]%nat.

Definition is_invalid_edge (r : result unit) : bool :=
  match r with
  | Raise InvalidEdge => true
  | _ => false
  end.

(** A block-sum reduction, a correction that changes nothing and a
    save that succeeds, to run [merge_to_size] on examples. *)
Definition block_sum (m : matrix_t) (groups : list (list nat)) : result matrix_t :=
  Ok (map (fun gi =>
        map (fun gj =>
          fold_right Qplus 0%Q
            (flat_map (fun i => map (fun j => nth j (nth i m []) 0%Q) gj) gi))
          groups)
        groups).

Definition no_correction (m : matrix_t) : result matrix_t := Ok m.

Definition saved (h : hiCMatrix) : result unit := Ok tt.

(** The left flank as the spec of [get_flanks] words it: scan the path
    and stop, before adding the next bin, once the summed length of the
    bins collected so far is within the tolerance band or above it. *)
Fixpoint spec_path_flank_loop (path_length : nat -> Z) (tolerance_min tolerance_max : Q)
    (flank _path : list nat) : list nat :=
  match _path with
  | [] => flank
  | n :: rest =>
      let flank_sum := inject_Z (sumZ (map path_length flank)) in
      if Qlt_bool tolerance_max flank_sum
         || (Qle_bool tolerance_min flank_sum && Qle_bool flank_sum tolerance_max)
      then flank
      else spec_path_flank_loop path_length tolerance_min tolerance_max
             (flank ++ [n]) rest
  end.

Definition spec_path_flank (path_length : nat -> Z) (flank_length : Z)
    (_path : list nat) : list nat :=
  spec_path_flank_loop path_length
    (inject_Z flank_length * 0.75)%Q (inject_Z flank_length * 1.25)%Q [] _path.

(** The enumerated paths that [remove_bins_by_size] retains and those it
    discards, given the summed length of each. *)
Definition retained_paths (min_length : Z) (paths : list (list nat))
    (lengths : list Z) : list (list nat) :=
  map fst (filter (fun pl => min_length <? snd pl) (combine paths lengths)).

Definition discarded_paths (min_length : Z) (paths : list (list nat))
    (lengths : list Z) : list (list nat) :=
  map fst (filter (fun pl => negb (min_length <? snd pl)) (combine paths lengths)).

(** The attributes a node carries when they are those of a bin. *)
Definition bin_attr (interval : Interval.t) : Attr.t :=
  Attr.make (Interval.label interval) (Interval.start interval)
    (Interval.end_ interval) (Interval.coverage interval)
    (Interval.end_ interval - Interval.start interval).

(** The nodes of the path graph are the indices of the bins of the
    matrix provider, and every node carries the attributes of the bin
    at its index. *)
Definition nodes_mirror_bins (self : Scaffolds) : Prop :=
  PathGraph.nodes (contig_G self)
  = seq 0 (length (cut_intervals (hic self)))
  /\ forall i interval,
       nth_error (cut_intervals (hic self)) i = Some interval ->
       exists a,
         PathGraph.node_attr (contig_G self) i = Ok a
         /\ Attr.name a = Interval.label interval
         /\ Attr.start a = Interval.start interval
         /\ Attr.end_ a = Interval.end_ interval
         /\ Attr.coverage a = Interval.coverage interval
         /\ Attr.length a = Interval.end_ interval - Interval.start interval.

(** A reduce group is a non-empty list of nodes that carry
    attributes. *)
Definition group_of_nodes (self : Scaffolds) (group : list nat) : Prop :=
  group <> []
  /\ forall x, In x group -> exists a, PathGraph.node_attr (contig_G self) x = Ok a.

(** Every node lies on a chain and the chains hold nodes only. *)
Definition chains_cover_nodes (G : PathGraph.t) : Prop :=
  (forall v, In v (PathGraph.nodes G) ->
             exists p, In p (PathGraph.path G) /\ In v p)
  /\ (forall p x, In p (PathGraph.path G) -> In x p -> In x (PathGraph.nodes G)).

(** What a round of the loop of [_init_path_graph] keeps: the nodes are
    the indices seen so far, every node lies on a chain, and the run
    collected so far holds nodes. *)
Definition init_invariant (k : nat)
    (st : PathGraph.t * list nat * option string) : Prop :=
  PathGraph.nodes (fst (fst st)) = seq 0 k
  /\ chains_cover_nodes (fst (fst st))
  /\ (forall x, In x (snd (fst st)) -> In x (seq 0 k)).

(** ** Notions used by the properties of the bootstrap *)

(** The maximal runs of consecutive equal labels, as lists of the
    indices they cover; [k] is the index of the first label. *)
Fixpoint label_runs (k : nat) (labels : list string) : list (list nat) :=
  match labels with
  | [] => []
  | l :: rest =>
      match label_runs (S k) rest with
      | [] => [[k]]
      | r :: rs =>
          match rest with
          | [] => [[k]]
          | l' :: _ =>
              if String.eqb l l' then (k :: r) :: rs else [k] :: r :: rs
          end
      end
  end.

(** A run that is not empty, as a list of runs. *)
Definition run_if_any (run : list nat) : list (list nat) :=
  match run with
  | [] => []
  | _ => [run]
  end.

(** The loop of [_init_path_graph] without the graph: the runs already
    closed, the run being collected and the label seen last. *)
Definition runs_step (st : list (list nat) * list nat * option string)
    (e : nat * Interval.t) : list (list nat) * list nat * option string :=
  let '(closed, run, prev_label) := st in
  let '(idx, interval) := e in
  if label_differs prev_label (Interval.label interval)
  then (closed ++ run_if_any run, [idx], Some (Interval.label interval))
  else (closed, run ++ [idx], Some (Interval.label interval)).

(** How the graph of [_init_path_graph] stands to the runs after [k]
    bins: its chains are the closed runs and one chain per bin of the
    run being collected. *)
Definition runs_invariant (k : nat) (G : PathGraph.t)
    (closed : list (list nat)) (run : list nat) : Prop :=
  Permutation (PathGraph.path G) (closed ++ map (fun i => [i]) run)
  /\ PathGraph.nodes G = seq 0 k
  /\ concat closed ++ run = seq 0 k
  /\ Forall (fun r => r <> []) closed.

(** The runs of a list of labels that continues a run [run] whose
    label is [prev_label]. *)
Definition continue_run (run : list nat) (prev_label : option string)
    (labels : list string) (runs : list (list nat)) : list (list nat) :=
  match run, labels, runs with
  | [], _, _ => runs
  | _, l :: _, r :: rs =>
      if label_differs prev_label l then run :: runs else (run ++ r) :: rs
  | _, _, _ => [run]
  end.

(** The test of the loop of [compute_N50] on the sorted lengths [kept]:
    the wrapped total and the wrapped running sum, both as doubles. *)
Definition reaches_half (kept : list Z) (i : nat) : bool :=
  float_of_int64 (wrap64 (sumZ kept))
  <=? 2 * float_of_int64 (wrap64 (sumZ (firstn (S i) kept))).

(** Two contigs of one bin each, of 2^52 and 2^52 + 1 bp: their total
    length, 2^53 + 1, is not a double. *)
Definition long_contigs_example : Scaffolds :=
  __init__
    {| matrix := map (map inject_Z) [ [0; 1]; [1; 0] ];
       cut_intervals :=
         [ Interval.make "c-0" 0 (2 ^ 52) 1;
           Interval.make "c-1" 0 (2 ^ 52 + 1) 1 ] |}.

(** The matrix of a provider has one row and one column per bin. *)
Definition matrix_is_square (h : hiCMatrix) : Prop :=
  length (matrix h) = length (cut_intervals h)
  /\ Forall (fun row => length row = length (cut_intervals h)) (matrix h).

(** * Properties *)

(** [H : (x <- r ;; k) = Ok _]: name the value of [r] and go on with
    [k]; the branch in which [r] raises contradicts [H]. *)
Ltac bind_ok H x Hx :=
  match type of H with
  | bind ?r _ = Ok _ =>
      destruct r as [x|?] eqn:Hx; cbn [bind] in H; [|discriminate H]
  end.

(** ** The flank partition *)

(** The sum the scan of the source computes: the number of collected
    bins times the length of the bin [x] names. *)
Lemma flank_sum_is_count_times_last (path_length : nat -> Z) (x : nat)
    (flank : list nat) :
  sumZ (map (fun _ => path_length x) flank)
  = Z.of_nat (length flank) * path_length x.
Proof.
  induction flank as [|n flank IH]; [reflexivity|].
  cbn [map sumZ fold_right length]. fold (sumZ (map (fun _ => path_length x) flank)).
  rewrite IH. lia.
Qed.

(** Where every bin is as long as the one [x] names, the sum the source
    computes is the sum of the collected bins, and the two scans agree. *)
Lemma flank_loop_uniform (path_length : nat -> Z) (tmin tmax : Q) (x : nat)
    (_path flank : list nat) :
  (forall n, In n flank \/ In n _path -> path_length n = path_length x) ->
  _get_path_flank_loop path_length tmin tmax x flank _path
  = spec_path_flank_loop path_length tmin tmax flank _path.
Proof.
  revert flank. induction _path as [|n rest IH]; intros flank Hu; simpl.
  - reflexivity.
  - assert (Hsum : map (fun _ => path_length x) flank = map path_length flank).
    { apply map_ext_in. intros a Ha. symmetry. apply Hu. now left. }
    rewrite Hsum.
    destruct (Qlt_bool tmax _); simpl; [reflexivity|].
    destruct (Qle_bool tmin _ && Qle_bool _ tmax); [reflexivity|].
    apply IH. intros m [Hm|Hm].
    + apply in_app_or in Hm. destruct Hm as [Hm|[->|[]]]; apply Hu; auto.
      right; now left.
    + apply Hu. right; now right.
Qed.

(** C1: on the path [0, 1, 2] with bins of 10, 10 and 100 bp and target
    20 (total 120 >= 30) the scan of the source multiplies the number of
    collected bins by the length of the last bin of the path: it stops
    with the left flank [0], where the summed lengths of the collected
    bins give [0, 1]; the call returns [[0], [2]]. *)
Theorem get_flanks_flank_sum_reads_last_bin :
  let path_length := node_length uneven_example in
  map path_length [0; 1; 2]%nat = [10; 10; 100]
  /\ (inject_Z 20 * 1.5 <= inject_Z (path_length_sum path_length [0; 1; 2]%nat))%Q
  /\ _get_path_flank path_length (inject_Z 20 * 0.75)%Q (inject_Z 20 * 1.25)%Q
       2%nat [0; 1; 2]%nat = [0%nat]
  /\ spec_path_flank path_length 20 [0; 1; 2]%nat = [0; 1]%nat
  /\ get_flanks path_length [0; 1; 2]%nat 20 30 0 = [[0%nat]; [2%nat]]
  /\ get_flanks_of uneven_example [0; 1; 2]%nat 20 30 = Ok [[0%nat]; [2%nat]].
Proof. vm_compute. repeat split; congruence. Qed.

(** *** What the flanks of a path are made of *)

Lemma mem_In (x : nat) (l : list nat) : mem x l = true <-> In x l.
Proof.
  unfold mem. rewrite existsb_exists. split.
  - intros [y [Hy Heq]]. apply Nat.eqb_eq in Heq. now subst.
  - intros H. exists x. split; [assumption | apply Nat.eqb_refl].
Qed.

Lemma mem_false (x : nat) (l : list nat) : mem x l = false <-> ~ In x l.
Proof.
  rewrite <- mem_In. destruct (mem x l); split; congruence.
Qed.

Lemma length_zero_nil {A} (l : list A) : (length l =? 0)%nat = true <-> l = [].
Proof. rewrite Nat.eqb_eq. apply length_zero_iff_nil. Qed.

(** The scan returns what it was given followed by a prefix of what it
    visits. *)
Lemma flank_loop_prefix (path_length : nat -> Z) (tmin tmax : Q) (x : nat)
    (_path flank : list nat) :
  exists k,
    _get_path_flank_loop path_length tmin tmax x flank _path
    = flank ++ firstn k _path.
Proof.
  revert flank. induction _path as [|n rest IH]; intros flank; simpl.
  - exists 0%nat. now rewrite app_nil_r.
  - destruct (Qlt_bool tmax _).
    + exists 0%nat. now rewrite app_nil_r.
    + destruct (Qle_bool tmin _ && Qle_bool _ tmax).
      * exists 0%nat. now rewrite app_nil_r.
      * destruct (IH (flank ++ [n])) as [k Hk]. exists (S k).
        rewrite Hk, <- app_assoc. reflexivity.
Qed.

Lemma path_flank_prefix (path_length : nat -> Z) (tmin tmax : Q) (x : nat)
    (_path : list nat) :
  exists k, _get_path_flank path_length tmin tmax x _path = firstn k _path.
Proof. apply (flank_loop_prefix path_length tmin tmax x _path []). Qed.



Lemma incl_firstn {A} (k : nat) (l : list A) : incl (firstn k l) l.
Proof.
  intros a Ha. rewrite <- (firstn_skipn k l). apply in_or_app. now left.
Qed.

Lemma incl_skipn {A} (k : nat) (l : list A) : incl (skipn k l) l.
Proof.
  intros a Ha. rewrite <- (firstn_skipn k l). apply in_or_app. now right.
Qed.

Lemma NoDup_app_disjoint {A} (l1 l2 : list A) (a : A) :
  NoDup (l1 ++ l2) -> In a l1 -> ~ In a l2.
Proof.
  induction l1 as [|b l1 IH]; simpl; intros Hnd Hin Hin2; [contradiction|].
  inversion Hnd as [|? ? Hb Hnd']; subst. destruct Hin as [->|Hin].
  - apply Hb. apply in_or_app. now right.
  - now apply IH.
Qed.



Lemma interior_of_spec (path left_flank right_flank : list nat) (a : nat) :
  In a (interior_of path left_flank right_flank)
  <-> In a path /\ ~ In a left_flank /\ ~ In a right_flank.
Proof.
  unfold interior_of. rewrite filter_In, negb_true_iff, mem_false, in_app_iff.
  tauto.
Qed.



(** ** The N50 statistic *)

Lemma Qhalf_le_bool (t c : Z) :
  Qle_bool (inject_Z t / 2) (inject_Z c) = (t <=? 2 * c).
Proof.
  apply eq_iff_eq_true. rewrite Qle_bool_iff, Z.leb_le.
  unfold Qle, Qdiv, Qmult, Qinv, inject_Z. cbn -[Z.mul]. lia.
Qed.

Lemma cumsum_from_length (acc : Z) (l : list Z) :
  length (cumsum_from acc l) = length l.
Proof. revert acc. induction l; intros; simpl; [reflexivity | now rewrite IHl]. Qed.

Lemma wrap64_small (z : Z) : - 2 ^ 63 <= z < 2 ^ 63 -> wrap64 z = z.
Proof.
  intros Hz. unfold wrap64.
  assert (H64 : 2 ^ 64 = 2 * 2 ^ 63) by reflexivity.
  rewrite Z.mod_small by lia. lia.
Qed.

Lemma wrap64_add_l (a b : Z) : wrap64 (wrap64 a + b) = wrap64 (a + b).
Proof.
  unfold wrap64.
  replace ((a + 2 ^ 63) mod 2 ^ 64 - 2 ^ 63 + b + 2 ^ 63)
    with ((a + 2 ^ 63) mod 2 ^ 64 + b) by lia.
  rewrite Zplus_mod_idemp_l. f_equal. f_equal. lia.
Qed.

(** The running sums of an int64 array are the exact sums, wrapped. *)
Lemma cumsum_from_nth (l : list Z) (acc : Z) (i : nat) :
  (i < length l)%nat ->
  nth i (cumsum_from acc l) 0 = wrap64 (acc + sumZ (firstn (S i) l)).
Proof.
  revert acc i. induction l as [|a l IH]; intros acc i Hi; simpl in Hi; [lia|].
  destruct i as [|i].
  - cbn [cumsum_from nth firstn sumZ fold_right]. f_equal. lia.
  - cbn [cumsum_from nth]. rewrite IH by lia. rewrite wrap64_add_l.
    f_equal. change (sumZ (firstn (S (S i)) (a :: l)))
      with (a + sumZ (firstn (S i) l)). lia.
Qed.

Lemma cumsum_from_last (l : list Z) (acc : Z) :
  l <> [] -> last (cumsum_from acc l) 0 = wrap64 (acc + sumZ l).
Proof.
  revert acc. induction l as [|a l IH]; intros acc Hl; [congruence|].
  destruct l as [|b l].
  - cbn. f_equal. lia.
  - change (last (cumsum_from acc (a :: b :: l)) 0)
      with (last (cumsum_from (wrap64 (acc + a)) (b :: l)) 0).
    rewrite IH by discriminate. rewrite wrap64_add_l. f_equal.
    change (sumZ (a :: b :: l)) with (a + sumZ (b :: l)). lia.
Qed.

(** Integers up to 2^53 in absolute value are doubles. *)
Lemma float_of_int64_exact (n : Z) : Z.abs n <= 2 ^ 53 -> float_of_int64 n = n.
Proof.
  intros Hn. unfold float_of_int64. cbv zeta.
  destruct (Z.ltb_spec (Z.abs n) (2 ^ 53)) as [_|Hge]; [reflexivity|].
  assert (Habs : Z.abs n = 2 ^ 53) by lia.
  destruct (Z.abs_eq_or_opp n) as [Hp|Hm].
  - rewrite Hp in Habs. subst n. reflexivity.
  - assert (Hn' : n = - 2 ^ 53) by lia. subst n. reflexivity.
Qed.

Lemma sumZ_cons (a : Z) (l : list Z) : sumZ (a :: l) = a + sumZ l.
Proof. reflexivity. Qed.

Lemma abs_sumZ_firstn (l : list Z) (k : nat) :
  Z.abs (sumZ (firstn k l)) <= sumZ (map Z.abs l).
Proof.
  revert k. induction l as [|a l IH]; intros k.
  - rewrite firstn_nil. cbn. lia.
  - destruct k as [|k].
    + cbn [firstn map]. rewrite sumZ_cons. specialize (IH 0%nat).
      cbn [firstn] in IH. change (sumZ []) with 0 in *. lia.
    + cbn [firstn map]. rewrite !sumZ_cons. specialize (IH k). lia.
Qed.

Lemma abs_sumZ (l : list Z) : Z.abs (sumZ l) <= sumZ (map Z.abs l).
Proof.
  rewrite <- (firstn_all l) at 1. apply abs_sumZ_firstn.
Qed.

Lemma sumZ_Permutation (l l' : list Z) : Permutation l l' -> sumZ l = sumZ l'.
Proof.
  induction 1 as [|x l l' _ IH|x y l|l l' l'' _ IH1 _ IH2];
    rewrite ?sumZ_cons; lia.
Qed.

Lemma forallb_in_int64 (l : list Z) :
  Forall (fun z => - 2 ^ 63 <= z < 2 ^ 63) l <-> forallb in_int64 l = true.
Proof.
  rewrite forallb_forall, Forall_forall. unfold in_int64.
  split; intros H z Hz; specialize (H z Hz).
  - apply andb_true_intro. split; [apply Z.leb_le | apply Z.ltb_lt]; lia.
  - apply andb_prop in H. destruct H as [H1 H2].
    apply Z.leb_le in H1. apply Z.ltb_lt in H2. lia.
Qed.

(** The loop with [break] stops at the first index that passes the
    test. *)
Lemma for_break_first (test : nat -> bool) (n a cur i : nat) :
  (a <= i < a + n)%nat -> test i = true ->
  (forall j, (a <= j < i)%nat -> test j = false) ->
  for_break test (seq a n) cur = i.
Proof.
  revert a cur. induction n as [|n IH]; intros a cur Hi Ht Hbefore; [lia|].
  simpl. destruct (Nat.eq_dec a i) as [->|Hne].
  - now rewrite Ht.
  - rewrite (Hbefore a) by lia. apply IH; [lia | assumption |].
    intros j Hj. apply Hbefore. lia.
Qed.

Lemma item_nth {A} (l : list A) (i : nat) (d : A) :
  (i < length l)%nat -> item l i = Ok (nth i l d).
Proof.
  intros Hi. unfold item. now rewrite (nth_error_nth' l d Hi).
Qed.

Lemma Permutation_filter {A} (f : A -> bool) (l l' : list A) :
  Permutation l l' -> Permutation (filter f l) (filter f l').
Proof.
  induction 1 as [|x l l' _ IH|x y l|l l' l'' _ IH1 _ IH2]; simpl.
  - constructor.
  - destruct (f x); [now constructor | assumption].
  - destruct (f x), (f y); try apply Permutation_refl. apply perm_swap.
  - now apply Permutation_trans with (filter f l').
Qed.

Lemma StronglySorted_filter {A} (R : A -> A -> Prop) (f : A -> bool) (l : list A) :
  StronglySorted R l -> StronglySorted R (filter f l).
Proof.
  induction 1 as [|a l _ IH Hall]; simpl; [constructor|].
  destruct (f a); [|assumption]. constructor; [assumption|].
  apply Forall_forall. intros b Hb. apply filter_In in Hb.
  rewrite Forall_forall in Hall. now apply Hall.
Qed.

Lemma sort_Sorted_le (l : list Z) : Sorted Z.le (ZSort.sort l).
Proof.
  assert (H := ZSort.Sorted_sort l).
  induction H as [|a s Hs IH Hhd]; constructor; [assumption|].
  destruct Hhd as [|b s' Hab]; constructor. now apply ZOrder.leb_le.
Qed.

(** The lengths [compute_N50] works on after the filter: the sorted
    list of the lengths above [min_length]. *)
Lemma filtered_sorted (min_length : Z) (lengths : list Z) :
  let kept := filter (fun l => min_length <? l) (ZSort.sort lengths) in
  Sorted Z.le kept
  /\ Permutation kept (filter (fun l => min_length <? l) lengths).
Proof.
  split.
  - apply StronglySorted_Sorted, StronglySorted_filter, Sorted_StronglySorted.
    + intros a b c. apply Z.le_trans.
    + apply sort_Sorted_le.
  - apply Permutation_filter, Permutation_sym, ZSort.Permuted_sort.
Qed.

Lemma for_break_ext (test test' : nat -> bool) (n a cur : nat) :
  (forall i, (a <= i < a + n)%nat -> test i = test' i) ->
  for_break test (seq a n) cur = for_break test' (seq a n) cur.
Proof.
  revert a cur. induction n as [|n IH]; intros a cur Hext; [reflexivity|].
  cbn [seq for_break]. rewrite (Hext a) by lia.
  destruct (test' a); [reflexivity|]. apply IH. intros i Hi. apply Hext. lia.
Qed.

(** The value [compute_N50] returns once the path lengths are known and
    fit into an int64 array. *)
Lemma compute_N50_unfold_int64 (self : Scaffolds) (min_length : Z)
    (lengths : list Z) :
  get_paths_length self = Ok lengths ->
  Forall (fun l => - 2 ^ 63 <= l < 2 ^ 63) lengths ->
  let kept := filter (fun l => min_length <? l) (ZSort.sort lengths) in
  compute_N50 self min_length =
  match kept with
  | [] => match lengths with
          | [] => Raise (HiCAssemblerException "No paths. Can't compute N50")
          | _ => Raise (HiCAssemblerException
                          "No paths with length > {}. Can't compute N50")
          end
  | _ => item kept (for_break (reaches_half kept) (seq 0 (length kept)) 0%nat)
  end.
Proof.
  intros Hl Hfit kept. unfold compute_N50. rewrite Hl. cbn [bind].
  unfold fromiter_int. rewrite (proj1 (forallb_in_int64 lengths) Hfit). cbn [bind].
  destruct (length (ZSort.sort lengths) =? 0)%nat eqn:Hs.
  - apply length_zero_nil in Hs.
    assert (Hnil : lengths = []).
    { apply Permutation_nil. rewrite <- Hs. apply Permutation_sym, ZSort.Permuted_sort. }
    subst kept. rewrite Hs, Hnil. reflexivity.
  - fold kept. destruct (length kept =? 0)%nat eqn:Hk0.
    + apply length_zero_nil in Hk0. rewrite Hk0.
      destruct lengths; [discriminate Hs | reflexivity].
    + assert (Hne : kept <> []).
      { intros Hk. rewrite Hk in Hk0. discriminate. }
      rewrite (for_break_ext _ (reaches_half kept)).
      * destruct kept; [congruence | reflexivity].
      * intros i Hi. rewrite Qhalf_le_bool. unfold reaches_half, cumsum.
        rewrite cumsum_from_last by assumption.
        rewrite cumsum_from_nth by lia. reflexivity.
Qed.

(** An out-of-range path length stops [compute_N50] in [np.fromiter]. *)
Lemma compute_N50_overflow (self : Scaffolds) (min_length : Z) (lengths : list Z) :
  get_paths_length self = Ok lengths ->
  Exists (fun l => l < - 2 ^ 63 \/ 2 ^ 63 <= l) lengths ->
  compute_N50 self min_length = Raise OverflowError.
Proof.
  intros Hl Hex. unfold compute_N50. rewrite Hl. cbn [bind]. unfold fromiter_int.
  destruct (forallb in_int64 lengths) eqn:Hfit; [|reflexivity].
  apply forallb_in_int64 in Hfit. rewrite Forall_forall in Hfit.
  apply Exists_exists in Hex. destruct Hex as (l & Hin & Hout).
  specialize (Hfit l Hin). lia.
Qed.

(** Below 2^53 nothing wraps and nothing is rounded: the test of the
    loop is the exact comparison of the running sum with half of the
    total. *)
Lemma reaches_half_exact (kept : list Z) (i : nat) :
  sumZ (map Z.abs kept) <= 2 ^ 53 ->
  reaches_half kept i = (sumZ kept <=? 2 * sumZ (firstn (S i) kept)).
Proof.
  intros Hb. unfold reaches_half.
  assert (H1 := abs_sumZ kept). assert (H2 := abs_sumZ_firstn kept (S i)).
  assert (H53 : 2 ^ 53 < 2 ^ 63) by reflexivity.
  rewrite !wrap64_small by lia. rewrite !float_of_int64_exact by lia. reflexivity.
Qed.

(** The value [compute_N50] returns for lengths that fit into int64 and
    whose absolute values, above [min_length], add up to 2^53 at most. *)
Lemma compute_N50_unfold (self : Scaffolds) (min_length : Z) (lengths : list Z) :
  get_paths_length self = Ok lengths ->
  Forall (fun l => - 2 ^ 63 <= l < 2 ^ 63) lengths ->
  sumZ (map Z.abs (filter (fun l => min_length <? l) lengths)) <= 2 ^ 53 ->
  let kept := filter (fun l => min_length <? l) (ZSort.sort lengths) in
  compute_N50 self min_length =
  match kept with
  | [] => match lengths with
          | [] => Raise (HiCAssemblerException "No paths. Can't compute N50")
          | _ => Raise (HiCAssemblerException
                          "No paths with length > {}. Can't compute N50")
          end
  | _ => item kept
           (for_break (fun i => sumZ kept <=? 2 * sumZ (firstn (S i) kept))
              (seq 0 (length kept)) 0%nat)
  end.
Proof.
  intros Hl Hfit Hb kept.
  rewrite (compute_N50_unfold_int64 self min_length lengths Hl Hfit). fold kept.
  destruct (filtered_sorted min_length lengths) as [_ Hperm]. fold kept in Hperm.
  assert (Hb' : sumZ (map Z.abs kept) <= 2 ^ 53).
  { rewrite (sumZ_Permutation _ _ (Permutation_map Z.abs Hperm)). exact Hb. }
  rewrite (for_break_ext (reaches_half kept)
             (fun i => sumZ kept <=? 2 * sumZ (firstn (S i) kept))).
  - reflexivity.
  - intros i _. now apply reaches_half_exact.
Qed.

Lemma for_break_in_range (test : nat -> bool) (n a cur : nat) :
  (0 < n)%nat -> (a <= for_break test (seq a n) cur < a + n)%nat.
Proof.
  revert a cur. induction n as [|n IH]; intros a cur Hn; [lia|].
  simpl. destruct (test a); [lia|].
  destruct n as [|n]; [simpl; lia|].
  specialize (IH (S a) a). lia.
Qed.

(** Whenever a length survives the filter, [compute_N50] returns one
    of the surviving lengths. *)
Lemma compute_N50_returns (self : Scaffolds) (min_length : Z) (lengths : list Z) :
  get_paths_length self = Ok lengths ->
  Forall (fun l => - 2 ^ 63 <= l < 2 ^ 63) lengths ->
  filter (fun l => min_length <? l) lengths <> [] ->
  exists v, compute_N50 self min_length = Ok v
            /\ In v lengths /\ min_length < v.
Proof.
  intros Hl Hfit Hne. rewrite (compute_N50_unfold_int64 self min_length lengths Hl Hfit).
  destruct (filtered_sorted min_length lengths) as [_ Hperm].
  set (kept := filter (fun l => min_length <? l) (ZSort.sort lengths)) in *.
  destruct kept as [|k0 kept'] eqn:Hk.
  - apply Permutation_nil in Hperm. congruence.
  - rewrite <- Hk in *.
    set (i := for_break _ _ _).
    assert (Hi : (0 <= i < 0 + length kept)%nat).
    { apply for_break_in_range. rewrite Hk. simpl. lia. }
    exists (nth i kept 0). rewrite (item_nth kept i 0) by lia.
    split; [reflexivity|].
    assert (Hin : In (nth i kept 0) kept) by (apply nth_In; lia).
    apply (Permutation_in _ Hperm), filter_In in Hin.
    destruct Hin as [Hin Hlt]. split; [assumption | now apply Z.ltb_lt].
Qed.

(** C4, as amended: for path lengths that fit into int64 and whose
    absolute values, above [min_length], add up to 2^53 at most,
    [compute_N50] works on the path lengths above [min_length] in
    ascending order and returns the length at the first index at which
    the running sum reaches half of the total; on the state of the
    docstring, with path lengths 20, 30, 10, 10, 10 and [min_length] 2,
    it returns 20. *)
Theorem compute_N50_first_index_reaching_half
    (self : Scaffolds) (min_length : Z) (lengths : list Z) :
  get_paths_length self = Ok lengths ->
  Forall (fun l => - 2 ^ 63 <= l < 2 ^ 63) lengths ->
  sumZ (map Z.abs (filter (fun l => min_length <? l) lengths)) <= 2 ^ 53 ->
  (exists kept,
      Sorted Z.le kept
      /\ Permutation kept (filter (fun l => min_length <? l) lengths)
      /\ forall i, (i < length kept)%nat ->
           sumZ kept <= 2 * sumZ (firstn (S i) kept) ->
           (forall j, (j < i)%nat -> 2 * sumZ (firstn (S j) kept) < sumZ kept) ->
           compute_N50 self min_length = Ok (nth i kept 0))
  /\ get_paths_length N50_example = Ok [20; 30; 10; 10; 10]
  /\ compute_N50 N50_example 2 = Ok 20.
Proof.
  intros Hl Hfit Hb. split; [|split; reflexivity].
  exists (filter (fun l => min_length <? l) (ZSort.sort lengths)).
  destruct (filtered_sorted min_length lengths) as [Hsorted Hperm].
  split; [assumption|]. split; [assumption|].
  intros i Hi Hreach Hfirst.
  rewrite (compute_N50_unfold self min_length lengths Hl Hfit Hb).
  set (kept := filter (fun l => min_length <? l) (ZSort.sort lengths)) in *.
  destruct kept as [|k0 kept'] eqn:Hk; [simpl in Hi; lia|].
  rewrite <- Hk in *.
  rewrite (for_break_first _ (length kept) 0 0 i).
  - now apply item_nth.
  - lia.
  - now apply Z.leb_le.
  - intros j Hj. apply Z.leb_gt. apply Hfirst. lia.
Qed.

Lemma compute_N50_first_index_reaching_half_witness :
  (exists kept,
      Sorted Z.le kept
      /\ Permutation kept (filter (fun l => 2 <? l) [20; 30; 10; 10; 10])
      /\ forall i, (i < length kept)%nat ->
           sumZ kept <= 2 * sumZ (firstn (S i) kept) ->
           (forall j, (j < i)%nat -> 2 * sumZ (firstn (S j) kept) < sumZ kept) ->
           compute_N50 N50_example 2 = Ok (nth i kept 0))
  /\ get_paths_length N50_example = Ok [20; 30; 10; 10; 10]
  /\ compute_N50 N50_example 2 = Ok 20.
Proof.
  apply (compute_N50_first_index_reaching_half N50_example 2 [20; 30; 10; 10; 10]).
  - vm_compute. reflexivity.
  - repeat constructor; vm_compute; congruence.
  - vm_compute. congruence.
Defined.

(** C4, as stated, fails where the total is not a double: of the two
    lengths 2^52 and 2^52 + 1 the first does not reach half of the
    total, 2^53 + 1, and the second does, but [float] rounds the total
    to 2^53, the first running sum passes the test of the loop, and the
    call returns 2^52. *)
Lemma compute_N50_rounds_the_total :
  let kept := [2 ^ 52; 2 ^ 52 + 1] in
  get_paths_length long_contigs_example = Ok kept
  /\ Sorted Z.le kept
  /\ 2 * sumZ (firstn 1 kept) < sumZ kept
  /\ sumZ kept <= 2 * sumZ (firstn 2 kept)
  /\ compute_N50 long_contigs_example 0 = Ok (nth 0 kept 0)
  /\ compute_N50 long_contigs_example 0 <> Ok (nth 1 kept 0).
Proof.
  cbv zeta. split; [vm_compute; reflexivity|].
  split; [repeat constructor; vm_compute; congruence|].
  split; [vm_compute; reflexivity|]. split; [vm_compute; congruence|].
  split; [vm_compute; reflexivity|]. vm_compute. congruence.
Qed.

(** C5, as amended: for path lengths that fit into int64, when no path
    length is above [min_length], [compute_N50] raises
    HiCAssemblerException instead of returning a length; when exactly
    one is, it returns that length. *)
Theorem compute_N50_needs_one_length
    (self : Scaffolds) (min_length : Z) (lengths : list Z) :
  get_paths_length self = Ok lengths ->
  Forall (fun l => - 2 ^ 63 <= l < 2 ^ 63) lengths ->
  match filter (fun l => min_length <? l) lengths with
  | [] => exists message,
      compute_N50 self min_length = Raise (HiCAssemblerException message)
  | [l] => compute_N50 self min_length = Ok l
  | _ => exists l, compute_N50 self min_length = Ok l
  end.
Proof.
  intros Hl Hfit. destruct (filtered_sorted min_length lengths) as [_ Hperm].
  destruct (filter (fun l => min_length <? l) lengths) as [|l [|l' rest]] eqn:Hf.
  - rewrite (compute_N50_unfold_int64 self min_length lengths Hl Hfit).
    apply Permutation_sym, Permutation_nil in Hperm. rewrite Hperm.
    destruct lengths; eexists; reflexivity.
  - rewrite (compute_N50_unfold_int64 self min_length lengths Hl Hfit).
    apply Permutation_sym, Permutation_length_1_inv in Hperm. rewrite Hperm.
    cbn [length seq for_break]. destruct (reaches_half [l] 0); reflexivity.
  - destruct (compute_N50_returns self min_length lengths Hl Hfit) as (v & Hv & _).
    + rewrite Hf. discriminate.
    + now exists v.
Qed.

Lemma compute_N50_needs_one_length_witness :
  match filter (fun l => 25 <? l) [20; 30; 10; 10; 10] with
  | [] => exists message,
      compute_N50 N50_example 25 = Raise (HiCAssemblerException message)
  | [l] => compute_N50 N50_example 25 = Ok l
  | _ => exists l, compute_N50 N50_example 25 = Ok l
  end.
Proof.
  apply (compute_N50_needs_one_length N50_example 25 [20; 30; 10; 10; 10]).
  - vm_compute. reflexivity.
  - repeat constructor; vm_compute; congruence.
Defined.

(** C5, as stated, fails on the state of the docstring with
    [min_length] 25: the single length 30 is above it, and the call
    returns 30. *)
Lemma compute_N50_single_length_returned :
  get_paths_length N50_example = Ok [20; 30; 10; 10; 10]
  /\ filter (fun l => 25 <? l) [20; 30; 10; 10; 10] = [30]
  /\ compute_N50 N50_example 25 = Ok 30
  /\ ~ raises (compute_N50 N50_example 25).
Proof.
  repeat split; try reflexivity.
  intros [e He]. vm_compute in He. discriminate.
Qed.

(** ** Merging bins *)

(** An empty list of reduce groups sends [merge_to_size] to the warning
    that reads [inspect], a name the module never binds. *)
Lemma merge_to_size_no_groups
    (reduce_matrix : matrix_t -> list (list nat) -> result matrix_t)
    (iterativeCorrection : matrix_t -> result matrix_t)
    (save : hiCMatrix -> result unit) (ipdb : debugger)
    (self : Scaffolds) (target_length : Z) :
  reduce_groups self target_length = Ok [] ->
  merge_to_size reduce_matrix iterativeCorrection save ipdb self target_length
  = Raise (NameError "inspect").
Proof. intros H. unfold merge_to_size. rewrite H. reflexivity. Qed.

(** With one reduce group whose interval can be built, the call hands
    back (None, None) and leaves the state as it was. *)
Lemma merge_to_size_one_group
    (reduce_matrix : matrix_t -> list (list nat) -> result matrix_t)
    (iterativeCorrection : matrix_t -> result matrix_t)
    (save : hiCMatrix -> result unit) (ipdb : debugger)
    (self : Scaffolds) (target_length : Z) (group : list nat) (i : Interval.t) :
  reduce_groups self target_length = Ok [group] ->
  new_cut_interval ipdb self group = Ok i ->
  merge_to_size reduce_matrix iterativeCorrection save ipdb self target_length
  = Ok (self, ReturnNoneNone).
Proof.
  intros H Hi. unfold merge_to_size. rewrite H. simpl. rewrite Hi. reflexivity.
Qed.

(** C3: on a manager without bins the flattened list of flanks is
    empty, and [merge_to_size] raises NameError where the claim has it
    hand back a no-op outcome: the branch formats its warning with
    [inspect.stack()], and [inspect] is not imported. *)
Theorem merge_to_size_nothing_to_reduce_raises
    (reduce_matrix : matrix_t -> list (list nat) -> result matrix_t)
    (iterativeCorrection : matrix_t -> result matrix_t)
    (save : hiCMatrix -> result unit) (ipdb : debugger) (target_length : Z) :
  get_all_paths empty_example = Ok []
  /\ reduce_groups empty_example target_length = Ok []
  /\ existsb (String.eqb "inspect") module_globals = false
  /\ merge_to_size reduce_matrix iterativeCorrection save ipdb empty_example target_length
     = Raise (NameError "inspect").
Proof. repeat split; reflexivity. Qed.

(** ** Joining scaffolds *)

(** C7: on four single-bin contigs whose contacts form the ring
    0 - 1 - 2 - 3 - 0, node 0 takes its two edges, and node 2 then
    proposes the edges (2, 1) and (2, 3); the second would close the
    ring, [add_edge] refuses it, and the exception leaves
    [get_nearest_neighbors]: the branch for single-bin paths calls
    [add_edge] outside any try block.  The call does not reach its
    closing breakpoint, so this holds whatever the debugger does. *)
Theorem get_nearest_neighbors_invalid_edge_escapes :
  get_all_paths ring_example = Ok [[0]; [1]; [2]; [3]]%nat
  /\ (exists self',
        (forall ipdb,
           get_nearest_neighbors ipdb ring_example 0 = (self', Raise InvalidEdge))
        /\ PathGraph.path (contig_G self') = [[2; 1; 0; 3]]%nat
        /\ raises (snd (check_edge self' 2 3))).
Proof.
  split; [reflexivity|].
  eexists. split; [intros ipdb; vm_compute; reflexivity|].
  split; [reflexivity|]. eexists. vm_compute. reflexivity.
Qed.

(** ** Length filtering *)

Lemma mapM_Forall2 {A B} (f : A -> result B) (l : list A) (r : list B) :
  mapM f l = Ok r -> Forall2 (fun a b => f a = Ok b) l r.
Proof.
  revert r. induction l as [|a l IH]; simpl; intros r H.
  - injection H as <-. constructor.
  - destruct (f a) as [b|e] eqn:Hfa; simpl in H; [|discriminate].
    destruct (mapM f l) as [bs|e]; simpl in H; [|discriminate].
    injection H as <-. constructor; [assumption | now apply IH].
Qed.

Lemma mapM_length {A B} (f : A -> result B) (l : list A) (r : list B) :
  mapM f l = Ok r -> length r = length l.
Proof.
  intros H. apply mapM_Forall2 in H. symmetry. eapply Forall2_length, H.
Qed.

Lemma Forall2_right {A B} (P : A -> B -> Prop) (Q : B -> Prop)
    (l : list A) (r : list B) :
  (forall a b, P a b -> Q b) -> Forall2 P l r -> Forall Q r.
Proof.
  intros HPQ. induction 1; constructor; eauto.
Qed.

(** The loop of [remove_bins_by_size] reads the length of every path
    and appends the members of those above [min_length]. *)
Lemma remove_bins_to_keep_spec (self : Scaffolds) (min_length : Z)
    (paths : list (list nat)) (to_keep result_ : list nat) :
  remove_bins_to_keep self min_length paths to_keep = Ok result_ ->
  exists lengths,
    mapM (path_sum self) paths = Ok lengths
    /\ result_ = to_keep ++ concat (retained_paths min_length paths lengths).
Proof.
  revert to_keep. induction paths as [|path paths IH]; simpl; intros to_keep H.
  - injection H as <-. exists []. split; [reflexivity | now rewrite app_nil_r].
  - destruct (path_sum self path) as [s|e]; simpl in H; [|discriminate].
    destruct (min_length <? s) eqn:Hs.
    + apply IH in H. destruct H as (lengths & Hl & ->).
      exists (s :: lengths). rewrite Hl. split; [reflexivity|].
      unfold retained_paths. simpl. rewrite Hs. simpl. now rewrite app_assoc.
    + apply IH in H. destruct H as (lengths & Hl & ->).
      exists (s :: lengths). rewrite Hl. split; [reflexivity|].
      unfold retained_paths. simpl. rewrite Hs. reflexivity.
Qed.

Lemma retained_paths_long (self : Scaffolds) (min_length : Z)
    (paths : list (list nat)) (lengths : list Z) :
  Forall2 (fun p s => path_sum self p = Ok s) paths lengths ->
  Forall (fun p => exists s, path_sum self p = Ok s /\ min_length < s)
    (retained_paths min_length paths lengths)
  /\ Forall (fun p => exists s, path_sum self p = Ok s /\ s <= min_length)
       (discarded_paths min_length paths lengths).
Proof.
  unfold retained_paths, discarded_paths.
  induction 1 as [|p s paths lengths Hp _ [IHr IHd]]; simpl.
  - split; constructor.
  - destruct (Z.ltb_spec min_length s); simpl; split; try assumption.
    + constructor; [|assumption]. now exists s.
    + constructor; [|assumption]. now exists s.
Qed.

(** C8, as amended: [remove_bins_by_size] retains the paths whose summed
    bin length is above [min_length], in order, and discards those whose
    summed length is at most [min_length].  When a path is retained, the
    new matrix is square with as many rows as there are retained bin
    indices and the bin metadata are those of the retained indices;
    when none is, the state is left as it was. *)
Theorem remove_bins_by_size_retains_long_paths
    (self self' : Scaffolds) (min_length : Z) (paths : list (list nat)) :
  get_all_paths self = Ok paths ->
  remove_bins_by_size self min_length = Ok self' ->
  exists lengths,
    mapM (path_sum self) paths = Ok lengths
    /\ let retained := retained_paths min_length paths lengths in
       let discarded := discarded_paths min_length paths lengths in
       let to_keep := concat retained in
       remove_bins_to_keep self min_length paths [] = Ok to_keep
       /\ Forall (fun p => exists s, path_sum self p = Ok s /\ min_length < s)
            retained
       /\ Forall (fun p => exists s, path_sum self p = Ok s /\ s <= min_length)
            discarded
       /\ if (length to_keep =? 0)%nat
          then self' = self
          else dimension (matrix (hic self')) = length to_keep
               /\ Forall (fun row => length row = length to_keep)
                    (matrix (hic self'))
               /\ mapM (item (cut_intervals (hic self))) to_keep
                  = Ok (cut_intervals (hic self')).
Proof.
  intros Hpaths Hcall. unfold remove_bins_by_size in Hcall.
  rewrite Hpaths in Hcall. cbn [bind] in Hcall.
  bind_ok Hcall to_keep Hkeep.
  destruct (remove_bins_to_keep_spec _ _ _ _ _ Hkeep) as (lengths & Hl & Heq).
  simpl in Heq. subst to_keep. exists lengths. split; [assumption|].
  cbv zeta. split; [reflexivity|].
  destruct (retained_paths_long self min_length paths lengths (mapM_Forall2 _ _ _ Hl))
    as [Hr Hd].
  split; [assumption|]. split; [assumption|].
  set (to_keep := concat (retained_paths min_length paths lengths)) in *.
  destruct (length to_keep =? 0)%nat; cbn [negb] in Hcall.
  - now injection Hcall as <-.
  - bind_ok Hcall rows Hrows. bind_ok Hcall new_matrix Hcols.
    bind_ok Hcall new_cut_intervals Hivs.
    injection Hcall as <-. unfold _init_path_graph.
    destruct (fold_left _ _ _) as [[G cp] pl]. cbn [hic matrix cut_intervals update_matrix].
    split; [|split; [|reflexivity]].
    + unfold dimension. rewrite (mapM_length _ _ _ Hcols).
      apply (mapM_length _ _ _ Hrows).
    + apply mapM_Forall2 in Hcols. revert Hcols. apply Forall2_right.
      intros row0 row Hrow. apply (mapM_length _ _ _ Hrow).
Qed.

Lemma remove_bins_by_size_retains_long_paths_witness :
  exists self',
    remove_bins_by_size remove_bins_example 20 = Ok self'
    /\ exists lengths,
    mapM (path_sum remove_bins_example) [[0; 1; 2]; [3; 4]; [5]]%nat = Ok lengths
    /\ let retained := retained_paths 20 [[0; 1; 2]; [3; 4]; [5]]%nat lengths in
       let discarded := discarded_paths 20 [[0; 1; 2]; [3; 4]; [5]]%nat lengths in
       let to_keep := concat retained in
       remove_bins_to_keep remove_bins_example 20 [[0; 1; 2]; [3; 4]; [5]]%nat []
       = Ok to_keep
       /\ Forall (fun p => exists s, path_sum remove_bins_example p = Ok s /\ 20 < s)
            retained
       /\ Forall (fun p => exists s, path_sum remove_bins_example p = Ok s /\ s <= 20)
            discarded
       /\ if (length to_keep =? 0)%nat
          then self' = remove_bins_example
          else dimension (matrix (hic self')) = length to_keep
               /\ Forall (fun row => length row = length to_keep)
                    (matrix (hic self'))
               /\ mapM (item (cut_intervals (hic remove_bins_example))) to_keep
                  = Ok (cut_intervals (hic self')).
Proof.
  eexists. split; [vm_compute; reflexivity|].
  apply (remove_bins_by_size_retains_long_paths remove_bins_example _ 20
           [[0; 1; 2]; [3; 4]; [5]]%nat); vm_compute; reflexivity.
Defined.

(** C8, as stated, fails on the state of the docstring with
    [min_length] 100: no path is longer, no bin index is retained, and
    the matrix keeps its 6 rows. *)
Lemma remove_bins_by_size_nothing_retained :
  get_all_paths remove_bins_example = Ok [[0; 1; 2]; [3; 4]; [5]]%nat
  /\ remove_bins_to_keep remove_bins_example 100 [[0; 1; 2]; [3; 4]; [5]]%nat []
     = Ok []
  /\ remove_bins_by_size remove_bins_example 100 = Ok remove_bins_example
  /\ dimension (matrix (hic remove_bins_example)) = 6%nat
  /\ dimension (matrix (hic remove_bins_example)) <> @length nat [].
Proof. vm_compute. repeat split; try reflexivity. discriminate. Qed.

(** ** Edge validity *)

(** A node with an incident edge lies on a path. *)
Lemma degree_positive_getitem (G : PathGraph.t) (u : nat) :
  (0 < PathGraph.degree G u)%nat -> exists p, PathGraph.getitem G u = Ok p.
Proof.
  unfold PathGraph.degree, PathGraph.predecessors, PathGraph.successors,
    PathGraph.getitem.
  destruct (find (mem u) (PathGraph.path G)) as [p|]; simpl; [|lia].
  intros _. now exists p.
Qed.

(** C6: [check_edge] raises exactly when the edge exists in one of the
    two directions, or one of the two nodes has degree 2, or both have
    degree 1 and [v] lies on the path of [u]; otherwise it returns
    normally.  In both cases the state is the one it was given. *)
Theorem check_edge_raises_iff (self : Scaffolds) (u v : nat) :
  let G := contig_G self in
  let invalid :=
    (PathGraph.has_edge G u v = true \/ PathGraph.has_edge G v u = true)
    \/ (PathGraph.degree G u = 2%nat \/ PathGraph.degree G v = 2%nat)
    \/ (PathGraph.degree G u = 1%nat /\ PathGraph.degree G v = 1%nat
        /\ exists p, PathGraph.getitem G u = Ok p /\ In v p) in
  (raises (snd (check_edge self u v)) <-> invalid)
  /\ (~ invalid -> snd (check_edge self u v) = Ok tt)
  /\ fst (check_edge self u v) = self.
Proof.
  intros G invalid.
  assert (Hcases : (invalid /\ raises (snd (check_edge self u v)))
                   \/ (~ invalid /\ snd (check_edge self u v) = Ok tt)).
  { subst invalid. unfold check_edge, has_edge. cbn [snd]. fold G.
    destruct (PathGraph.has_edge G u v) eqn:Huv.
    { left. split; [now left; left | eexists; reflexivity]. }
    destruct (PathGraph.has_edge G v u) eqn:Hvu.
    { left. split; [now left; right | eexists; reflexivity]. }
    cbn [orb check_free].
    destruct (Nat.eqb_spec (PathGraph.degree (contig_G self) u) 2) as [Hu2|Hu2].
    { left. split; [right; left; now left | eexists; reflexivity]. }
    destruct (Nat.eqb_spec (PathGraph.degree (contig_G self) v) 2) as [Hv2|Hv2].
    { left. split; [right; left; now right | eexists; reflexivity]. }
    cbn [bind]. fold G in Hu2, Hv2 |- *.
    destruct (Nat.eqb_spec (PathGraph.degree G u) 1) as [Hu1|Hu1]; cbn [andb].
    2: { right. split; [|reflexivity].
         intros [[H|H]|[[H|H]|(H & _)]]; congruence. }
    destruct (Nat.eqb_spec (PathGraph.degree G v) 1) as [Hv1|Hv1].
    2: { right. split; [|reflexivity].
         intros [[H|H]|[[H|H]|(_ & H & _)]]; congruence. }
    destruct (degree_positive_getitem G u) as [p Hp]; [lia|].
    rewrite Hp. cbn [bind]. destruct (mem v p) eqn:Hm.
    - left. split; [|eexists; reflexivity].
      right; right. repeat split; try assumption.
      exists p. split; [reflexivity | now apply mem_In].
    - right. split; [|reflexivity].
      intros [[H|H]|[[H|H]|(_ & _ & q & Hq & Hin)]]; try congruence.
      injection Hq as <-. apply mem_false in Hm. contradiction. }
  split; [|split; [|reflexivity]].
  - destruct Hcases as [[Hi Hr]|[Hn Hok]]; split; intros H; try assumption.
    + destruct H as [e He]. congruence.
    + contradiction.
  - intros Hn. destruct Hcases as [[Hi _]|[_ Hok]]; [contradiction | assumption].
Qed.

(** ** The nodes of a rebuilt graph *)

Lemma mem_seq_fresh (k : nat) : mem k (seq 0 k) = false.
Proof. apply mem_false. rewrite in_seq. lia. Qed.

(** One round of the loop appends the node [idx] when it is new. *)
Lemma _init_path_graph_step_node (G : PathGraph.t) (contig_path : list nat)
    (prev_label : option string) (idx : nat) (interval : Interval.t) :
  mem idx (PathGraph.nodes G) = false ->
  PathGraph.node
    (fst (fst (_init_path_graph_step (G, contig_path, prev_label) (idx, interval))))
  = PathGraph.node G ++ [(idx, bin_attr interval)].
Proof.
  intros Hfresh. unfold _init_path_graph_step, PathGraph.add_node.
  rewrite Hfresh.
  destruct (label_differs prev_label (Interval.label interval));
    [destruct (1 <? length contig_path)%nat|]; reflexivity.
Qed.

Lemma _init_path_graph_fold_node (l : list Interval.t) (k : nat)
    (st : PathGraph.t * list nat * option string) :
  PathGraph.nodes (fst (fst st)) = seq 0 k ->
  PathGraph.node
    (fst (fst (fold_left _init_path_graph_step (combine (seq k (length l)) l) st)))
  = PathGraph.node (fst (fst st))
    ++ map (fun e => (fst e, bin_attr (snd e))) (combine (seq k (length l)) l).
Proof.
  revert k st. induction l as [|interval l IH]; intros k st Hnodes; simpl.
  - now rewrite app_nil_r.
  - destruct st as [[G contig_path] prev_label]. simpl in Hnodes.
    assert (Hstep := _init_path_graph_step_node G contig_path prev_label k interval).
    rewrite Hnodes in Hstep. specialize (Hstep (mem_seq_fresh k)).
    rewrite IH.
    + rewrite Hstep, <- app_assoc. reflexivity.
    + unfold PathGraph.nodes. rewrite Hstep, map_app. cbn [map fst].
      fold (PathGraph.nodes G). rewrite Hnodes, seq_S. reflexivity.
Qed.

(** The graph [_init_path_graph] builds from the empty graph has one
    node per bin, in order, with the attributes of the bin. *)
Lemma _init_path_graph_node (h : hiCMatrix) :
  PathGraph.node (contig_G (_init_path_graph {| hic := h; contig_G := PathGraph.empty |}))
  = map (fun e => (fst e, bin_attr (snd e))) (enumerate (cut_intervals h)).
Proof.
  unfold _init_path_graph. cbn [hic contig_G].
  assert (H := _init_path_graph_fold_node (cut_intervals h) 0
                 (PathGraph.empty, [], None) eq_refl).
  unfold enumerate.
  destruct (fold_left _ _ _) as [[G contig_path] prev_label]. cbn [fst] in H.
  simpl in H. cbn [contig_G].
  destruct (1 <? length contig_path)%nat; exact H.
Qed.

Lemma find_enumerated (l : list Interval.t) (k i : nat) (interval : Interval.t) :
  nth_error l i = Some interval ->
  find (fun e => Nat.eqb (fst e) (k + i))
    (map (fun e => (fst e, bin_attr (snd e))) (combine (seq k (length l)) l))
  = Some ((k + i)%nat, bin_attr interval).
Proof.
  revert k i. induction l as [|b l IH]; intros k i Hi.
  - destruct i; discriminate.
  - simpl. destruct i as [|i]; simpl in Hi.
    + injection Hi as ->. rewrite Nat.add_0_r, Nat.eqb_refl. reflexivity.
    + destruct (Nat.eqb_spec k (k + S i)) as [Heq|_]; [lia|].
      replace (k + S i)%nat with (S k + i)%nat by lia. now apply IH.
Qed.

Lemma map_fst_combine {A B} (l1 : list A) (l2 : list B) :
  length l1 = length l2 -> map fst (combine l1 l2) = l1.
Proof.
  revert l2. induction l1 as [|a l1 IH]; intros [|b l2] Hlen; simpl in *;
    try reflexivity; try discriminate.
  f_equal. apply IH. lia.
Qed.

Lemma rebuilt_nodes_mirror_bins (h : hiCMatrix) :
  nodes_mirror_bins (_init_path_graph {| hic := h; contig_G := PathGraph.empty |}).
Proof.
  assert (Hnode := _init_path_graph_node h).
  assert (Hhic : hic (_init_path_graph {| hic := h; contig_G := PathGraph.empty |}) = h).
  { unfold _init_path_graph. destruct (fold_left _ _ _) as [[G cp] pl]. reflexivity. }
  unfold nodes_mirror_bins. rewrite Hhic. split.
  - unfold PathGraph.nodes. rewrite Hnode, map_map. cbn [fst].
    unfold enumerate. apply map_fst_combine. apply length_seq.
  - intros i interval Hi. exists (bin_attr interval).
    unfold PathGraph.node_attr. rewrite Hnode. unfold enumerate.
    assert (Hfind := find_enumerated (cut_intervals h) 0 i interval Hi).
    cbn [Nat.add] in Hfind. rewrite Hfind.
    repeat split; reflexivity.
Qed.

(** C10: after construction, after a [remove_bins_by_size] that retains
    a bin, and after a [merge_to_size] that completes, the nodes of the
    path graph are the indices 0 .. N-1 of the N bins of the matrix
    provider, and node [i] carries the label, start, end and coverage of
    bin [i] and the length end - start. *)
Theorem nodes_mirror_bins_after_rebuild :
  (forall hic_matrix, nodes_mirror_bins (__init__ hic_matrix))
  /\ (forall self self' min_length paths to_keep,
        get_all_paths self = Ok paths ->
        remove_bins_to_keep self min_length paths [] = Ok to_keep ->
        to_keep <> [] ->
        remove_bins_by_size self min_length = Ok self' ->
        nodes_mirror_bins self'
        /\ length (cut_intervals (hic self')) = length to_keep
        /\ dimension (matrix (hic self')) = length to_keep)
  /\ (forall reduce_matrix iterativeCorrection save ipdb self self' target_length h,
        merge_to_size reduce_matrix iterativeCorrection save ipdb self target_length
        = Ok (self', ReturnHic h) ->
        nodes_mirror_bins self' /\ h = hic self').
Proof.
  split; [|split].
  - intros hic_matrix. apply rebuilt_nodes_mirror_bins.
  - intros self self' min_length paths to_keep Hpaths Hkeep Hne Hcall.
    unfold remove_bins_by_size in Hcall. rewrite Hpaths in Hcall.
    cbn [bind] in Hcall. rewrite Hkeep in Hcall. cbn [bind] in Hcall.
    destruct (length to_keep =? 0)%nat eqn:Hlen.
    { apply length_zero_nil in Hlen. contradiction. }
    cbn [negb] in Hcall.
    bind_ok Hcall rows Hrows. bind_ok Hcall new_matrix Hcols.
    bind_ok Hcall new_cut_intervals Hivs.
    injection Hcall as <-. split; [apply rebuilt_nodes_mirror_bins|].
    unfold _init_path_graph. destruct (fold_left _ _ _) as [[G cp] pl].
    cbn [hic matrix cut_intervals update_matrix]. split.
    + apply (mapM_length _ _ _ Hivs).
    + unfold dimension. rewrite (mapM_length _ _ _ Hcols).
      apply (mapM_length _ _ _ Hrows).
  - intros reduce_matrix iterativeCorrection save ipdb self self' target_length h
      Hcall.
    unfold merge_to_size in Hcall.
    bind_ok Hcall groups Hgroups.
    destruct (length groups =? 0)%nat.
    { bind_ok Hcall u Hu. injection Hcall as _ Hret. discriminate. }
    bind_ok Hcall new_cut_intervals Hivs.
    destruct (length groups <? 2)%nat.
    { injection Hcall as _ Hret. discriminate. }
    bind_ok Hcall reduced_matrix Hreduced. bind_ok Hcall corrected_matrix Hcorrected.
    bind_ok Hcall u Hsaved.
    injection Hcall as <- <-. split; [apply rebuilt_nodes_mirror_bins | reflexivity].
Qed.

(** ** The bins that replace the reduce groups *)

Lemma outer_flanks_incl (path_length : nat -> Z) (path : list nat)
    (flank_length : Z) :
  incl (fst (outer_flanks path_length path flank_length)) path
  /\ incl (snd (outer_flanks path_length path flank_length)) path.
Proof.
  unfold outer_flanks.
  destruct (path_flank_prefix path_length (inject_Z flank_length * 0.75)%Q
              (inject_Z flank_length * 1.25)%Q (last path 0%nat) path) as [k ->].
  destruct (path_flank_prefix path_length (inject_Z flank_length * 0.75)%Q
              (inject_Z flank_length * 1.25)%Q (last path 0%nat) (rev path)) as [k' ->].
  set (right0 := rev (firstn k' (rev path))).
  set (left1 := if negb _ then _ else _).
  assert (Hl : incl left1 path).
  { unfold left1. destruct (negb _).
    - intros a Ha. apply filter_In in Ha. now apply incl_firstn with (k := k).
    - apply incl_firstn. }
  assert (Hr : incl right0 path).
  { intros a Ha. apply in_rev in Ha. apply incl_firstn in Ha. now apply in_rev. }
  destruct (_ || _); simpl; split; try assumption.
  - apply incl_firstn.
  - apply incl_skipn.
Qed.

Lemma halves_nonempty {A} (path : list A) :
  (2 <= length path)%nat ->
  firstn (length path / 2) path <> [] /\ skipn (length path / 2) path <> [].
Proof.
  intros Hlen.
  assert (Hdiv := Nat.div_mod_eq (length path) 2).
  assert (Hmod : (length path mod 2 < 2)%nat) by (apply Nat.mod_upper_bound; lia).
  split; intros Hnil; apply (f_equal (@length A)) in Hnil; cbn [length] in Hnil.
  - rewrite length_firstn in Hnil. lia.
  - rewrite length_skipn in Hnil. lia.
Qed.

(** Every flank of a non-empty path is a non-empty list of members of
    the path. *)
Lemma get_flanks_nonempty_incl (path_length : nat -> Z) (path : list nat)
    (flank_length : Z) (recursive_repetitions counter : nat) :
  path <> [] ->
  Forall (fun flank => flank <> [] /\ incl flank path)
    (get_flanks path_length path flank_length recursive_repetitions counter).
Proof.
  funelim (get_flanks path_length path flank_length recursive_repetitions counter);
    intros Hne; try clear Heqcall.
  2: { constructor. }
  destruct (Nat.eqb_spec (length path) 1) as [Hone|Hone].
  { destruct (_ || _); repeat constructor; [assumption | apply incl_refl]. }
  assert (Hlen : (2 <= length path)%nat).
  { destruct path as [|a [|b path]]; simpl in *; try congruence; lia. }
  destruct (Qlt_bool _ _).
  { destruct (halves_nonempty path Hlen) as [Hf Hs].
    destruct (counter0 + 1 =? 1)%nat; repeat constructor;
      try assumption; try apply incl_refl; [apply incl_firstn | apply incl_skipn]. }
  destruct (outer_flanks_incl path_length path flank_length) as [Hil Hir].
  set (left_flank := fst (outer_flanks path_length path flank_length)) in *.
  set (right_flank := snd (outer_flanks path_length path flank_length)) in *.
  set (interior := interior_of path left_flank right_flank) in *.
  apply Forall_app. split; [|apply Forall_app; split].
  - destruct (length left_flank =? 0)%nat eqn:Hl; simpl; constructor; [|constructor].
    split; [|assumption]. intros Hnil. rewrite Hnil in Hl. discriminate.
  - destruct (length interior =? 0)%nat eqn:Hi; simpl; [constructor|].
    assert (Hint : interior <> []).
    { intros Hnil. rewrite Hnil in Hi. discriminate. }
    specialize (H Hint). revert H. apply Forall_impl.
    intros flank [Hf Hincl]. split; [assumption|].
    intros a Ha. apply Hincl in Ha. now apply interior_of_spec in Ha.
  - destruct (length right_flank =? 0)%nat eqn:Hr; simpl; constructor; [|constructor].
    split; [|assumption]. intros Hnil. rewrite Hnil in Hr. discriminate.
Qed.

(** The paths [get_all_paths] yields are not empty. *)
Lemma get_all_paths_loop_nonempty (G : PathGraph.t) (vs seen : list nat)
    (paths : list (list nat)) :
  get_all_paths_loop G vs seen = Ok paths -> Forall (fun p => p <> []) paths.
Proof.
  revert seen paths. induction vs as [|v vs IH]; simpl; intros seen paths H.
  - injection H as <-. constructor.
  - unfold PathGraph.getitem in H.
    destruct (find (mem v) (PathGraph.path G)) as [p|] eqn:Hfind;
      cbn [bind] in H; [|discriminate].
    destruct (mem v seen); [now apply IH in H|].
    destruct (get_all_paths_loop G vs (seen ++ p)) as [ps|e] eqn:Hps;
      cbn [bind] in H; [|discriminate].
    injection H as <-. constructor; [|now apply IH in Hps].
    apply find_some in Hfind. destruct Hfind as [_ Hm].
    intros Hnil. rewrite Hnil in Hm. discriminate.
Qed.

Lemma merge_paths_flatten_groups (self : Scaffolds) (target_length : Z)
    (paths : list (list nat)) (paths_flatten groups : list (list nat)) :
  Forall (fun p => p <> []) paths ->
  Forall (group_of_nodes self) paths_flatten ->
  merge_paths_flatten self target_length paths paths_flatten = Ok groups ->
  Forall (group_of_nodes self) groups.
Proof.
  revert paths_flatten. induction paths as [|path paths IH];
    simpl; intros paths_flatten Hne Hacc H.
  - now injection H as <-.
  - inversion Hne as [|? ? Hpath Hrest]; subst.
    unfold get_flanks_of in H.
    destruct (mapM (PathGraph.node_attr (contig_G self)) path) as [attrs|e] eqn:Hattrs;
      cbn [bind] in H; [|discriminate].
    apply (IH _ Hrest) in H; [assumption|].
    apply Forall_app. split; [assumption|].
    assert (Hnodes : forall x, In x path ->
              exists a, PathGraph.node_attr (contig_G self) x = Ok a).
    { apply mapM_Forall2 in Hattrs. clear - Hattrs.
      induction Hattrs as [|x a path attrs Hx _ IHf]; intros y Hy; [contradiction|].
      destruct Hy as [<-|Hy]; [now exists a | now apply IHf]. }
    assert (Hfl := get_flanks_nonempty_incl (node_length self) path target_length
                     100 0 Hpath).
    revert Hfl. apply Forall_impl. intros flank [Hf Hincl].
    split; [assumption|]. intros x Hx. apply Hnodes, Hincl, Hx.
Qed.

Lemma reduce_groups_of_nodes (self : Scaffolds) (target_length : Z)
    (groups : list (list nat)) :
  reduce_groups self target_length = Ok groups ->
  Forall (group_of_nodes self) groups.
Proof.
  unfold reduce_groups, get_all_paths. intros H.
  destruct (get_all_paths_loop _ _ _) as [paths|e] eqn:Hpaths;
    cbn [bind] in H; [|discriminate].
  apply get_all_paths_loop_nonempty in Hpaths.
  now apply (merge_paths_flatten_groups self target_length paths [] groups).
Qed.

Lemma first_item_In {A} (l : list A) :
  l <> [] -> exists a, first_item l = Ok a /\ In a l.
Proof.
  destruct l as [|a l]; [congruence|]. intros _. exists a. split; [reflexivity | now left].
Qed.

Lemma last_item_In {A} (l : list A) :
  l <> [] -> exists a, last_item l = Ok a /\ In a l.
Proof.
  intros Hne. unfold last_item. destruct (rev l) as [|a r] eqn:Hrev.
  - apply (f_equal (@rev A)) in Hrev. rewrite rev_involutive in Hrev. contradiction.
  - exists a. split; [reflexivity|]. apply in_rev. rewrite Hrev. now left.
Qed.

(** The interval built for a group of nodes. *)
Lemma new_cut_interval_of_group (ipdb : debugger) (self : Scaffolds)
    (sub_path : list nat) :
  group_of_nodes self sub_path ->
  exists first_node last_node first_attr last_attr,
    first_item sub_path = Ok first_node
    /\ last_item sub_path = Ok last_node
    /\ PathGraph.node_attr (contig_G self) first_node = Ok first_attr
    /\ PathGraph.node_attr (contig_G self) last_node = Ok last_attr
    /\ new_cut_interval ipdb self sub_path
       = if Attr.end_ last_attr <? Attr.start first_attr
         then Raise (misordered_exn ipdb)
         else if Attr.end_ last_attr =? Attr.start first_attr
         then Raise AssertionError
         else Ok (Interval.make (Attr.name first_attr) (Attr.start first_attr)
                    (Attr.end_ last_attr)
                    ((Attr.coverage first_attr + inject_Z (Attr.end_ last_attr)) / 2)%Q).
Proof.
  intros [Hne Hnodes].
  destruct (first_item_In sub_path Hne) as (first_node & Hfirst & Hfin).
  destruct (last_item_In sub_path Hne) as (last_node & Hlast & Hlin).
  destruct (Hnodes _ Hfin) as [first_attr Hfa].
  destruct (Hnodes _ Hlin) as [last_attr Hla].
  exists first_node, last_node, first_attr, last_attr.
  repeat (split; [assumption|]).
  unfold new_cut_interval. rewrite Hfirst, Hlast. cbn [bind].
  rewrite Hfa. cbn [bind]. rewrite Hla. cbn [bind].
  destruct (Z.ltb_spec (Attr.end_ last_attr) (Attr.start first_attr)) as [Hlt|Hge].
  - destruct (Z.ltb_spec (Attr.start first_attr) (Attr.end_ last_attr)); [lia|].
    destruct ipdb; reflexivity.
  - cbn [bind].
    destruct (Z.ltb_spec (Attr.start first_attr) (Attr.end_ last_attr)),
             (Z.eqb_spec (Attr.end_ last_attr) (Attr.start first_attr));
      try lia; reflexivity.
Qed.

Lemma mapM_raise {A B} (f : A -> result B) (l : list A) (e : exn) :
  mapM f l = Raise e -> Exists (fun a => f a = Raise e) l.
Proof.
  induction l as [|a l IH]; simpl; intros H; [discriminate|].
  destruct (f a) as [b|e'] eqn:Hfa; cbn [bind] in H.
  - destruct (mapM f l) as [bs|e'']; cbn [bind] in H; [discriminate|].
    right. apply IH. exact H.
  - left. congruence.
Qed.

Lemma hic_init_path_graph (self : Scaffolds) : hic (_init_path_graph self) = hic self.
Proof.
  unfold _init_path_graph. destruct (fold_left _ _ _) as [[G cp] pl]. reflexivity.
Qed.



(** The docstring of [merge_to_size]: the three bins that replace the
    six, with coverage 10.5, 20.5 and 30.5, and the single path they
    form. *)
Example merge_to_size_docstring :
  match merge_to_size block_sum no_correction saved Continue merge_example 20 with
  | Ok (self', ReturnHic h) =>
      h = hic self'
      /\ cut_intervals h
         = [ Interval.make "c-0" 0 20 (21 # 2); Interval.make "c-0" 20 40 (41 # 2);
             Interval.make "c-0" 40 60 (61 # 2) ]
      /\ get_all_paths self' = Ok [[0; 1; 2]]%nat
  | _ => False
  end.
Proof. vm_compute. repeat split; reflexivity. Qed.

(** A group whose first bin lies behind its last bin stops the call at
    the breakpoint: ImportError without [ipdb], and with it BdbQuit or,
    after the debugger, AssertionError. *)
Example merge_to_size_misordered_group :
  reduce_groups misordered_example 20 = Ok [[0; 1]; [2; 3]]%nat
  /\ merge_to_size block_sum no_correction saved NotInstalled misordered_example 20
     = Raise (ImportError "ipdb")
  /\ merge_to_size block_sum no_correction saved Continue misordered_example 20
     = Raise AssertionError
  /\ merge_to_size block_sum no_correction saved Quit misordered_example 20
     = Raise BdbQuit.
Proof. repeat split; reflexivity. Qed.

Lemma nodes_mirror_bins_after_rebuild_witness :
  nodes_mirror_bins (__init__ (get_test_matrix []))
  /\ (exists self',
        remove_bins_by_size remove_bins_example 20 = Ok self'
        /\ nodes_mirror_bins self'
        /\ length (cut_intervals (hic self')) = 3%nat
        /\ dimension (matrix (hic self')) = 3%nat)
  /\ (exists self' h,
        merge_to_size block_sum no_correction saved Continue merge_example 20
        = Ok (self', ReturnHic h)
        /\ nodes_mirror_bins self' /\ h = hic self').
Proof.
  destruct nodes_mirror_bins_after_rebuild as (Hinit & Hremove & Hmerge).
  split; [apply Hinit|]. split.
  - eexists. split; [vm_compute; reflexivity|].
    apply (Hremove remove_bins_example _ 20 [[0; 1; 2]; [3; 4]; [5]]%nat [0; 1; 2]%nat);
      try (vm_compute; reflexivity). discriminate.
  - eexists. eexists. split; [vm_compute; reflexivity|].
    apply (Hmerge block_sum no_correction saved Continue merge_example _ 20 _).
    vm_compute. reflexivity.
Defined.

(** ** The examples of the docstrings and of the spec *)

Example __init__docstring :
  PathGraph.getitem (contig_G (__init__ (get_test_matrix []))) 0 = Ok [0%nat]
  /\ PathGraph.getitem (contig_G (__init__ (get_test_matrix []))) 4 = Ok [3; 4]%nat.
Proof. split; reflexivity. Qed.

Example get_all_paths_docstring :
  get_all_paths remove_bins_example = Ok [[0; 1; 2]; [3; 4]; [5]]%nat.
Proof. reflexivity. Qed.

Example remove_bins_by_size_docstring :
  match remove_bins_by_size remove_bins_example 15,
        remove_bins_by_size remove_bins_example 20 with
  | Ok s15, Ok s20 =>
      get_all_paths s15 = Ok [[0; 1; 2]; [3; 4]]%nat
      /\ get_all_paths s20 = Ok [[0; 1; 2]]%nat
      /\ matrix (hic s20) = map (map inject_Z) [[2; 8; 5]; [8; 8; 15]; [5; 15; 0]]
  | _, _ => False
  end.
Proof. vm_compute. repeat split; reflexivity. Qed.

Example get_flanks_docstring :
  get_flanks_of merge_example [0; 1; 2; 3; 4; 5]%nat 20 30
  = Ok [[0; 1]; [2; 3]; [4; 5]]%nat
  /\ get_flanks_of five_bins_example [0; 1; 2; 3; 4]%nat 20 30
     = Ok [[0; 1]; [3; 4]]%nat
  /\ get_flanks_of five_bins_example [0; 1; 2; 3; 4]%nat 10 1
     = Ok [[0]; [4]]%nat.
Proof. repeat split; reflexivity. Qed.

(** The edge checks on the paths [0, 1, 2], [3, 4] and [5]: an edge
    that exists, a node of degree 2, the two ends of one path, and two
    free ends of different paths. *)
Example check_edge_examples :
  raises (snd (check_edge remove_bins_example 1 0))
  /\ raises (snd (check_edge remove_bins_example 1 5))
  /\ raises (snd (check_edge remove_bins_example 0 2))
  /\ snd (check_edge remove_bins_example 2 3) = Ok tt
  /\ match PathGraph.add_edge (contig_G remove_bins_example) 2 3 with
     | Ok G => PathGraph.path G = [[0; 1; 2; 3; 4]; [5]]%nat
               /\ raises (PathGraph.add_edge G 2 3)
     | Raise _ => False
     end.
Proof.
  vm_compute. repeat split; try reflexivity; eexists; reflexivity.
Qed.

(** Whatever the order in which the nodes of the ring and the
    neighbours of each node are visited, the joining loop ends with the
    exception of a refused edge. *)
Example ring_join_raises_in_every_order :
  forallb (fun nodes =>
    forallb (fun G =>
      is_invalid_edge
        (snd (join_loop G [] [0; 1; 2; 3]%nat nodes ring_example [])))
      ring_adjacencies)
    (orders [0; 1; 2; 3]%nat)
  = true
  /\ length (orders [0; 1; 2; 3]%nat) = 24%nat
  /\ length ring_adjacencies = 16%nat.
Proof. vm_compute. repeat split; reflexivity. Qed.

(** ** Constructed states can be enumerated *)

Lemma add_node_fresh (G : PathGraph.t) (v : nat) (a : Attr.t) :
  mem v (PathGraph.nodes G) = false ->
  chains_cover_nodes G ->
  PathGraph.nodes (PathGraph.add_node v a G) = PathGraph.nodes G ++ [v]
  /\ chains_cover_nodes (PathGraph.add_node v a G).
Proof.
  intros Hfresh [Hcover Hnodes]. unfold PathGraph.add_node. rewrite Hfresh.
  unfold PathGraph.nodes at 1. cbn [PathGraph.node]. rewrite map_app. cbn [map fst].
  split; [reflexivity|]. split; cbn [PathGraph.path];
    unfold PathGraph.nodes; cbn [PathGraph.node]; rewrite map_app; cbn [map fst];
    fold (PathGraph.nodes G).
  - intros w Hw. apply in_app_or in Hw. destruct Hw as [Hw|[<-|[]]].
    + destruct (Hcover w Hw) as (p & Hp & Hin). exists p.
      split; [apply in_or_app; now left | assumption].
    + exists [v]. split; [apply in_or_app; right; now left | now left].
  - intros p x Hp Hx. apply in_or_app. apply in_app_or in Hp.
    destruct Hp as [Hp|[<-|[]]].
    + left. eapply Hnodes; eassumption.
    + right. exact Hx.
Qed.

Lemma add_path_cover (G : PathGraph.t) (p : list nat) :
  chains_cover_nodes G ->
  (forall x, In x p -> In x (PathGraph.nodes G)) ->
  PathGraph.nodes (PathGraph.add_path p G) = PathGraph.nodes G
  /\ chains_cover_nodes (PathGraph.add_path p G).
Proof.
  intros [Hcover Hnodes] Hp. split; [reflexivity|].
  unfold PathGraph.add_path. split; cbn [PathGraph.path];
    unfold PathGraph.nodes; cbn [PathGraph.node]; fold (PathGraph.nodes G).
  - intros v Hv. destruct (mem v p) eqn:Hm.
    + exists p. split; [apply in_or_app; right; now left | now apply mem_In].
    + destruct (Hcover v Hv) as (q & Hq & Hin).
      exists (filter (fun w => negb (mem w p)) q).
      assert (Hvq : In v (filter (fun w => negb (mem w p)) q)).
      { apply filter_In. split; [assumption | now rewrite Hm]. }
      split; [|assumption]. apply in_or_app. left.
      apply filter_In. split.
      * apply in_map_iff. now exists q.
      * destruct (filter _ q); [contradiction | reflexivity].
  - intros q x Hq Hx. apply in_app_or in Hq. destruct Hq as [Hq|[<-|[]]].
    + apply filter_In in Hq. destruct Hq as [Hq _].
      apply in_map_iff in Hq. destruct Hq as (q0 & <- & Hq0).
      apply filter_In in Hx. destruct Hx as [Hx _]. eapply Hnodes; eassumption.
    + now apply Hp.
Qed.

Lemma _init_path_graph_step_invariant (k : nat)
    (st : PathGraph.t * list nat * option string) (interval : Interval.t) :
  init_invariant k st ->
  init_invariant (S k) (_init_path_graph_step st (k, interval)).
Proof.
  destruct st as [[G contig_path] prev_label]. intros (Hn & Hc & Hrun).
  cbn [fst snd] in *. unfold _init_path_graph_step.
  assert (Hfresh : mem k (PathGraph.nodes G) = false).
  { rewrite Hn. apply mem_seq_fresh. }
  destruct (add_node_fresh G k (bin_attr interval) Hfresh Hc) as [Hn1 Hc1].
  change (Attr.make _ _ _ _ _) with (bin_attr interval).
  set (G1 := PathGraph.add_node k (bin_attr interval) G) in *.
  assert (Hseq : PathGraph.nodes G1 = seq 0 (S k)).
  { rewrite Hn1, Hn, seq_S. reflexivity. }
  assert (Hrun1 : forall x, In x contig_path -> In x (PathGraph.nodes G1)).
  { intros x Hx. rewrite Hseq, seq_S. apply in_or_app. left. now apply Hrun. }
  assert (Hlast : forall x, In x [k] -> In x (seq 0 (S k))).
  { intros x [<-|[]]. apply in_seq. lia. }
  unfold init_invariant.
  destruct (label_differs prev_label (Interval.label interval)).
  - destruct (1 <? length contig_path)%nat; cbn [fst snd app].
    + destruct (add_path_cover G1 contig_path Hc1 Hrun1) as [Hn2 Hc2].
      split; [rewrite Hn2; exact Hseq | split; [exact Hc2 | exact Hlast]].
    + split; [exact Hseq | split; [exact Hc1 | exact Hlast]].
  - cbn [fst snd]. split; [exact Hseq | split; [exact Hc1 |]].
    intros x Hx. apply in_app_or in Hx. destruct Hx as [Hx|Hx].
    + rewrite <- Hseq. now apply Hrun1.
    + now apply Hlast.
Qed.

Lemma _init_path_graph_fold_invariant (l : list Interval.t) (k : nat)
    (st : PathGraph.t * list nat * option string) :
  init_invariant k st ->
  init_invariant (k + length l)
    (fold_left _init_path_graph_step (combine (seq k (length l)) l) st).
Proof.
  revert k st. induction l as [|interval l IH]; intros k st Hinv; simpl.
  - now rewrite Nat.add_0_r.
  - replace (k + S (length l))%nat with (S k + length l)%nat by lia.
    apply IH. now apply _init_path_graph_step_invariant.
Qed.

Lemma rebuilt_chains_cover_nodes (h : hiCMatrix) :
  chains_cover_nodes
    (contig_G (_init_path_graph {| hic := h; contig_G := PathGraph.empty |})).
Proof.
  unfold _init_path_graph. cbn [hic contig_G].
  assert (H0 : init_invariant 0 (PathGraph.empty, [], None)).
  { split; [reflexivity|]. split; [|intros x []].
    split; [intros v [] | intros p x []]. }
  assert (H := _init_path_graph_fold_invariant (cut_intervals h) 0 _ H0).
  unfold enumerate.
  destruct (fold_left _ _ _) as [[G contig_path] prev_label].
  destruct H as (Hn & Hc & Hrun). cbn [fst snd] in *. cbn [contig_G].
  destruct (1 <? length contig_path)%nat; [|assumption].
  apply add_path_cover; [assumption|]. intros x Hx. rewrite Hn. now apply Hrun.
Qed.

Lemma getitem_of_node (G : PathGraph.t) (v : nat) :
  chains_cover_nodes G -> In v (PathGraph.nodes G) ->
  exists p, PathGraph.getitem G v = Ok p /\ In p (PathGraph.path G).
Proof.
  intros [Hcover _] Hv. destruct (Hcover v Hv) as (q & Hq & Hin).
  unfold PathGraph.getitem.
  destruct (find (mem v) (PathGraph.path G)) as [p|] eqn:Hfind.
  - exists p. split; [reflexivity|]. now apply find_some in Hfind.
  - apply (find_none _ _ Hfind) in Hq. apply mem_false in Hq. contradiction.
Qed.

Lemma get_all_paths_loop_ok (G : PathGraph.t) (vs seen : list nat) :
  chains_cover_nodes G -> incl vs (PathGraph.nodes G) ->
  exists paths,
    get_all_paths_loop G vs seen = Ok paths
    /\ Forall (fun p => In p (PathGraph.path G)) paths.
Proof.
  intros Hc. revert seen. induction vs as [|v vs IH]; intros seen Hvs; simpl.
  - exists []. split; [reflexivity | constructor].
  - destruct (getitem_of_node G v Hc) as (p & Hp & Hin); [apply Hvs; now left|].
    rewrite Hp. cbn [bind].
    destruct (IH (seen ++ p)) as (paths & Hpaths & Hall).
    { intros w Hw. apply Hvs. now right. }
    rewrite Hpaths. destruct (mem v seen).
    + now exists paths.
    + exists (p :: paths). split; [reflexivity | now constructor].
Qed.

Lemma node_attr_of_node (G : PathGraph.t) (x : nat) :
  In x (PathGraph.nodes G) -> exists a, PathGraph.node_attr G x = Ok a.
Proof.
  unfold PathGraph.nodes, PathGraph.node_attr. intros Hx.
  destruct (find (fun e => Nat.eqb (fst e) x) (PathGraph.node G)) as [e|] eqn:Hfind.
  - now exists (snd e).
  - apply in_map_iff in Hx. destruct Hx as (e & Hfst & He).
    apply (find_none _ _ Hfind) in He. rewrite Hfst, Nat.eqb_refl in He. discriminate.
Qed.

Lemma mapM_ok {A B} (f : A -> result B) (l : list A) :
  (forall a, In a l -> exists b, f a = Ok b) -> exists bs, mapM f l = Ok bs.
Proof.
  induction l as [|a l IH]; intros H; simpl.
  - now exists [].
  - destruct (H a) as [b Hb]; [now left|]. rewrite Hb.
    destruct IH as [bs Hbs]; [intros a' Ha'; apply H; now right|].
    rewrite Hbs. now exists (b :: bs).
Qed.

(** On a state whose graph was built by [_init_path_graph], the paths
    and their lengths can be read: neither enumeration raises. *)
Lemma rebuilt_state_enumerates (h : hiCMatrix) :
  let self := _init_path_graph {| hic := h; contig_G := PathGraph.empty |} in
  exists paths lengths,
    get_all_paths self = Ok paths /\ get_paths_length self = Ok lengths.
Proof.
  intros self. assert (Hc := rebuilt_chains_cover_nodes h). fold self in Hc.
  destruct (get_all_paths_loop_ok (contig_G self) (PathGraph.nodes (contig_G self)) []
              Hc (incl_refl _)) as (paths & Hpaths & Hall).
  assert (Hsums : exists lengths, mapM (path_sum self) paths = Ok lengths).
  { apply mapM_ok. intros p Hp. rewrite Forall_forall in Hall.
    unfold path_sum.
    destruct (mapM_ok (fun x => a <- PathGraph.node_attr (contig_G self) x ;;
                                Ok (Attr.length a)) p) as [ls Hls].
    - intros x Hx. destruct (node_attr_of_node (contig_G self) x) as [a Ha].
      + destruct Hc as [_ Hnodes]. apply (Hnodes p x); [now apply Hall | assumption].
      + rewrite Ha. now exists (Attr.length a).
    - rewrite Hls. now exists (sumZ ls). }
  destruct Hsums as [lengths Hlengths].
  exists paths, lengths. unfold get_paths_length, get_all_paths.
  rewrite Hpaths. split; [reflexivity | exact Hlengths].
Qed.

(** ** The paths of a constructed state *)

Lemma filter_all {A} (f : A -> bool) (l : list A) :
  (forall a, In a l -> f a = true) -> filter f l = l.
Proof.
  induction l as [|a l IH]; intros H; simpl; [reflexivity|].
  rewrite (H a) by now left. f_equal. apply IH. intros b Hb. apply H. now right.
Qed.

Lemma label_runs_nonempty (labels : list string) (k : nat) :
  labels <> [] -> label_runs k labels <> [].
Proof.
  destruct labels as [|l rest]; [congruence|]. intros _. cbn [label_runs].
  destruct (label_runs (S k) rest); [discriminate|].
  destruct rest; [discriminate|]. destruct (String.eqb l s); discriminate.
Qed.

(** The loop without the graph collects the runs of the labels. *)
Lemma runs_step_fold (intervals : list Interval.t) (k : nat)
    (closed : list (list nat)) (run : list nat) (prev_label : option string) :
  (run = [] -> prev_label = None) ->
  let '(closed', run', _) :=
    fold_left runs_step (combine (seq k (length intervals)) intervals)
      (closed, run, prev_label) in
  closed' ++ run_if_any run'
  = closed ++ continue_run run prev_label (map Interval.label intervals)
                (label_runs k (map Interval.label intervals)).
Proof.
  revert k closed run prev_label.
  induction intervals as [|interval rest IH]; intros k closed run prev_label Hprev.
  - simpl. destruct run; reflexivity.
  - cbn [length seq combine fold_left map]. unfold runs_step at 2.
    set (l := Interval.label interval).
    destruct (label_differs prev_label l) eqn:Hd.
    + specialize (IH (S k) (closed ++ run_if_any run) [k] (Some l)).
      destruct (fold_left _ _ _) as [[closed' run'] prev'].
      rewrite IH by discriminate. rewrite <- app_assoc. f_equal.
      assert (Hruns : continue_run [k] (Some l) (map Interval.label rest)
                        (label_runs (S k) (map Interval.label rest))
                      = label_runs k (l :: map Interval.label rest)).
      { cbn [label_runs]. destruct (map Interval.label rest) as [|l' ls] eqn:Hls.
        - reflexivity.
        - assert (Hne := label_runs_nonempty (l' :: ls) (S k)).
          destruct (label_runs (S k) (l' :: ls)) as [|r rs];
            [exfalso; apply Hne; [discriminate | reflexivity]|].
          cbn [continue_run label_differs].
          destruct (String.eqb l l'); reflexivity. }
      rewrite Hruns. destruct run; [reflexivity|]. cbn [continue_run run_if_any].
      assert (Hne := label_runs_nonempty (l :: map Interval.label rest) k).
      destruct (label_runs k (l :: map Interval.label rest));
        [exfalso; apply Hne; [discriminate | reflexivity]|].
      rewrite Hd. reflexivity.
    + assert (Hrun : run <> []).
      { intros Hnil. rewrite (Hprev Hnil) in Hd. discriminate. }
      specialize (IH (S k) closed (run ++ [k]) (Some l)).
      destruct (fold_left _ _ _) as [[closed' run'] prev'].
      rewrite IH by (intros Hnil; destruct run; discriminate). f_equal.
      destruct run as [|a run]; [congruence|].
      cbn [label_runs]. destruct (map Interval.label rest) as [|l' ls] eqn:Hls.
      * cbn [continue_run app]. rewrite Hd. reflexivity.
      * assert (Hne := label_runs_nonempty (l' :: ls) (S k)).
        destruct (label_runs (S k) (l' :: ls)) as [|r rs];
          [exfalso; apply Hne; [discriminate | reflexivity]|].
        cbn [continue_run app label_differs].
        destruct (String.eqb l l'); cbn [negb].
        -- rewrite Hd. rewrite <- app_assoc. reflexivity.
        -- rewrite Hd. reflexivity.
Qed.

Lemma concat_singles (run : list nat) : concat (map (fun i => [i]) run) = run.
Proof. induction run as [|a run IH]; simpl; [reflexivity | now rewrite IH]. Qed.

(** [add_path] on chains that are closed runs, one chain per bin of the
    run it commits, and chains that share no bin with the run. *)
Lemma add_path_commits_run (G : PathGraph.t) (closed others : list (list nat))
    (run : list nat) :
  Permutation (PathGraph.path G) (closed ++ map (fun i => [i]) run ++ others) ->
  Forall (fun r => r <> [] /\ forall x, In x r -> ~ In x run) closed ->
  Forall (fun r => r <> [] /\ forall x, In x r -> ~ In x run) others ->
  Permutation (PathGraph.path (PathGraph.add_path run G))
    (closed ++ [run] ++ others).
Proof.
  intros Hperm Hclosed Hothers. unfold PathGraph.add_path. cbn [PathGraph.path].
  set (keep := fun q : list nat => negb (Nat.eqb (length q) 0)).
  set (drop := filter (fun v => negb (mem v run))).
  assert (Hsame : forall rs,
            Forall (fun r => r <> [] /\ forall x, In x r -> ~ In x run) rs ->
            filter keep (map drop rs) = rs).
  { induction 1 as [|r rs [Hne Hdisj] _ IH]; [reflexivity|].
    cbn [map filter]. assert (Hr : drop r = r).
    { apply filter_all. intros x Hx. apply negb_true_iff, mem_false. now apply Hdisj. }
    rewrite Hr, IH. unfold keep. destruct r; [congruence | reflexivity]. }
  assert (Hgone : forall l, (forall i, In i l -> In i run) ->
            filter keep (map drop (map (fun i => [i]) l)) = []).
  { induction l as [|i l IH]; intros Hl; [reflexivity|].
    cbn [map filter]. unfold drop at 1. cbn [filter].
    assert (Hm : mem i run = true) by (apply mem_In, Hl; now left).
    rewrite Hm. cbn [negb]. unfold keep at 1. cbn [length Nat.eqb negb].
    apply IH. intros j Hj. apply Hl. now right. }
  apply Permutation_trans with
    (filter keep (map drop (closed ++ map (fun i => [i]) run ++ others)) ++ [run]).
  - apply Permutation_app_tail, Permutation_filter, Permutation_map, Hperm.
  - rewrite !map_app, !filter_app, (Hsame _ Hclosed), (Hsame _ Hothers),
      (Hgone run (fun i Hi => Hi)).
    cbn [app]. rewrite <- app_assoc. apply Permutation_app_head.
    apply Permutation_app_comm.
Qed.

Lemma seq_split_disjoint (k : nat) (closed : list (list nat)) (run : list nat) :
  concat closed ++ run = seq 0 k ->
  Forall (fun r => r <> []) closed ->
  Forall (fun r => r <> [] /\ forall x, In x r -> ~ In x run) closed
  /\ ~ In k run /\ NoDup run.
Proof.
  intros Hseq Hne.
  assert (Hnd : NoDup (concat closed ++ run)) by (rewrite Hseq; apply seq_NoDup).
  split; [|split].
  - apply Forall_forall. intros r Hr. split.
    + rewrite Forall_forall in Hne. now apply Hne.
    + intros x Hx. apply (NoDup_app_disjoint _ _ _ Hnd).
      apply in_concat. now exists r.
  - intros Hk. assert (Hin : In k (seq 0 k)).
    { rewrite <- Hseq. apply in_or_app. now right. }
    apply in_seq in Hin. lia.
  - now apply NoDup_app_remove_l in Hnd.
Qed.

(** One round of the loop keeps the graph in step with the runs. *)
Lemma _init_path_graph_step_runs (k : nat) (G : PathGraph.t)
    (closed : list (list nat)) (run : list nat) (prev_label : option string)
    (interval : Interval.t) :
  runs_invariant k G closed run ->
  let '(G', run', prev') :=
    _init_path_graph_step (G, run, prev_label) (k, interval) in
  let '(closed', run'', prev'') :=
    runs_step (closed, run, prev_label) (k, interval) in
  run' = run'' /\ prev' = prev'' /\ runs_invariant (S k) G' closed' run'.
Proof.
  intros (Hperm & Hnodes & Hseq & Hne).
  destruct (seq_split_disjoint k closed run Hseq Hne) as (Hdisj & Hk & Hnd).
  unfold _init_path_graph_step, runs_step.
  assert (Hfresh : mem k (PathGraph.nodes G) = false).
  { rewrite Hnodes. apply mem_seq_fresh. }
  set (attr := Attr.make _ _ _ _ _).
  assert (HG1 : PathGraph.path (PathGraph.add_node k attr G) = PathGraph.path G ++ [[k]]
                /\ PathGraph.nodes (PathGraph.add_node k attr G) = seq 0 (S k)).
  { unfold PathGraph.add_node. rewrite Hfresh. split; [reflexivity|].
    unfold PathGraph.nodes. cbn [PathGraph.node]. rewrite map_app. cbn [map fst].
    fold (PathGraph.nodes G). rewrite Hnodes, seq_S. reflexivity. }
  destruct HG1 as [Hpath1 Hnodes1].
  set (G1 := PathGraph.add_node k attr G) in *.
  assert (Hperm1 : Permutation (PathGraph.path G1)
                     (closed ++ map (fun i => [i]) run ++ [[k]])).
  { rewrite Hpath1, app_assoc. now apply Permutation_app_tail. }
  destruct (label_differs prev_label (Interval.label interval)).
  - destruct (1 <? length run)%nat eqn:Hlen.
    + split; [reflexivity|]. split; [reflexivity|].
      assert (Hrun : run <> []).
      { intros Hnil. rewrite Hnil in Hlen. discriminate. }
      destruct run as [|a run']; [congruence|]. cbn [run_if_any].
      set (run := a :: run') in *.
      split; [|split; [|split]].
      * cbn [map app]. rewrite <- app_assoc.
        apply (add_path_commits_run G1 closed [[k]] run Hperm1 Hdisj).
        constructor; [|constructor]. split; [discriminate|].
        intros x [<-|[]]. exact Hk.
      * exact Hnodes1.
      * rewrite concat_app. cbn [concat]. rewrite app_nil_r, <- app_assoc, seq_S.
        rewrite <- Hseq, <- app_assoc. reflexivity.
      * apply Forall_app. split; [assumption|]. constructor; [assumption|constructor].
    + split; [reflexivity|]. split; [reflexivity|].
      assert (Hsingle : map (fun i => [i]) run = run_if_any run).
      { destruct run as [|a [|b run']]; try reflexivity.
        cbn [length] in Hlen. apply Nat.ltb_ge in Hlen. lia. }
      split; [|split; [|split]].
      * cbn [map app]. rewrite <- app_assoc, <- Hsingle. exact Hperm1.
      * exact Hnodes1.
      * rewrite concat_app, <- Hsingle, concat_singles, seq_S, <- Hseq.
        reflexivity.
      * apply Forall_app. split; [assumption|].
        destruct run; cbn [run_if_any]; constructor; [discriminate | constructor].
  - split; [reflexivity|]. split; [reflexivity|].
    split; [|split; [|split]].
    + rewrite map_app. exact Hperm1.
    + exact Hnodes1.
    + rewrite app_assoc, Hseq, seq_S. reflexivity.
    + assumption.
Qed.

Lemma _init_path_graph_fold_runs (intervals : list Interval.t) (k : nat)
    (G : PathGraph.t) (closed : list (list nat)) (run : list nat)
    (prev_label : option string) :
  runs_invariant k G closed run ->
  let '(G', run', _) :=
    fold_left _init_path_graph_step
      (combine (seq k (length intervals)) intervals) (G, run, prev_label) in
  let '(closed', run'', _) :=
    fold_left runs_step
      (combine (seq k (length intervals)) intervals) (closed, run, prev_label) in
  run' = run'' /\ runs_invariant (k + length intervals) G' closed' run'.
Proof.
  revert k G closed run prev_label.
  induction intervals as [|interval rest IH]; intros k G closed run prev_label Hinv.
  - simpl. rewrite Nat.add_0_r. now split.
  - cbn [length seq combine fold_left].
    assert (Hstep := _init_path_graph_step_runs k G closed run prev_label interval Hinv).
    destruct (_init_path_graph_step (G, run, prev_label) (k, interval))
      as [[G1 run1] prev1].
    destruct (runs_step (closed, run, prev_label) (k, interval))
      as [[closed1 run1'] prev1'].
    destruct Hstep as (<- & <- & Hinv1).
    replace (k + S (length rest))%nat with (S k + length rest)%nat by lia.
    apply IH. exact Hinv1.
Qed.

(** The chains of a rebuilt graph are the runs of the labels. *)
Lemma rebuilt_paths_are_runs (h : hiCMatrix) :
  let self := _init_path_graph {| hic := h; contig_G := PathGraph.empty |} in
  let runs := label_runs 0 (map Interval.label (cut_intervals h)) in
  Permutation (PathGraph.path (contig_G self)) runs
  /\ PathGraph.nodes (contig_G self) = seq 0 (length (cut_intervals h))
  /\ concat runs = seq 0 (length (cut_intervals h))
  /\ Forall (fun r => r <> []) runs.
Proof.
  cbv zeta. unfold _init_path_graph, enumerate. cbn [hic contig_G].
  assert (H0 : runs_invariant 0 PathGraph.empty [] []).
  { split; [constructor|]. split; [reflexivity|]. split; [reflexivity | constructor]. }
  assert (Hfold := _init_path_graph_fold_runs (cut_intervals h) 0
                     PathGraph.empty [] [] None H0).
  assert (Hruns := runs_step_fold (cut_intervals h) 0 [] [] None (fun _ => eq_refl)).
  destruct (fold_left _init_path_graph_step _ _) as [[G run] prev].
  destruct (fold_left runs_step _ _) as [[closed run'] prev'].
  destruct Hfold as (<- & Hperm & Hnodes & Hseq & Hne).
  cbn [app continue_run] in Hruns. rewrite <- Hruns. cbn [Nat.add] in *.
  destruct (seq_split_disjoint _ closed run Hseq Hne) as (Hdisj & _ & _).
  assert (Hconcat : concat (closed ++ run_if_any run)
                    = seq 0 (length (cut_intervals h))).
  { rewrite concat_app, <- Hseq. f_equal. destruct run; [reflexivity|].
    cbn [run_if_any concat]. now rewrite app_nil_r. }
  assert (Hall : Forall (fun r => r <> []) (closed ++ run_if_any run)).
  { apply Forall_app. split; [assumption|].
    destruct run; cbn [run_if_any]; constructor; [discriminate | constructor]. }
  destruct (1 <? length run)%nat eqn:Hlen; cbn [contig_G].
  - split; [|split; [|split]]; try assumption.
    assert (Hrun : run_if_any run = [run]).
    { destruct run; [discriminate Hlen | reflexivity]. }
    rewrite Hrun.
    assert (Hp := add_path_commits_run G closed [] run).
    rewrite !app_nil_r in Hp. apply Hp; [assumption | assumption | constructor].
  - split; [|split; [|split]]; try assumption.
    assert (Hsingle : map (fun i => [i]) run = run_if_any run).
    { destruct run as [|a [|b run']]; try reflexivity.
      cbn [length] in Hlen. apply Nat.ltb_ge in Hlen. lia. }
    now rewrite <- Hsingle.
Qed.

(** In a family of lists whose concatenation repeats nothing, two lists
    that share an element are the same list. *)
Lemma disjoint_family_unique (L : list (list nat)) (q r : list nat) (v : nat) :
  NoDup (concat L) -> In q L -> In r L -> In v q -> In v r -> q = r.
Proof.
  induction L as [|a L IH]; intros Hnd Hq Hr Hvq Hvr; [contradiction|].
  cbn [concat] in Hnd.
  assert (Hcross : forall s, In s L -> In v a -> In v s -> False).
  { intros s Hs Hva Hvs. apply (NoDup_app_disjoint _ _ v Hnd Hva).
    apply in_concat. now exists s. }
  destruct Hq as [<-|Hq], Hr as [<-|Hr].
  - reflexivity.
  - exfalso. now apply (Hcross r).
  - exfalso. now apply (Hcross q).
  - apply IH; try assumption. now apply NoDup_app_remove_l in Hnd.
Qed.

Section Enumeration.

Variable G : PathGraph.t.
Variable runs : list (list nat).
Hypothesis Hperm : Permutation (PathGraph.path G) runs.
Hypothesis Hnodup : NoDup (concat runs).

(** The path of a bin is the run that holds it. *)
Lemma getitem_run (r : list nat) (v : nat) :
  In r runs -> In v r -> PathGraph.getitem G v = Ok r.
Proof.
  intros Hr Hv. unfold PathGraph.getitem.
  destruct (find (mem v) (PathGraph.path G)) as [q|] eqn:Hfind.
  - apply find_some in Hfind. destruct Hfind as [Hq Hm]. apply mem_In in Hm.
    f_equal. apply (disjoint_family_unique runs q r v); try assumption.
    now apply (Permutation_in _ Hperm).
  - exfalso. assert (Hin : In r (PathGraph.path G)).
    { now apply (Permutation_in _ (Permutation_sym Hperm)). }
    apply (find_none _ _ Hfind) in Hin. apply mem_false in Hin. contradiction.
Qed.

(** Bins of a run that was seen are passed over. *)
Lemma get_all_paths_loop_skip (r ws vs seen : list nat) :
  In r runs -> incl ws r -> incl ws seen ->
  exists seen',
    get_all_paths_loop G (ws ++ vs) seen = get_all_paths_loop G vs seen'
    /\ forall x, In x seen' -> In x seen \/ In x r.
Proof.
  intros Hr. revert seen. induction ws as [|w ws IH]; intros seen Hws Hseen.
  - exists seen. split; [reflexivity | now left].
  - cbn [app get_all_paths_loop].
    rewrite (getitem_run r w Hr) by (apply Hws; now left). cbn [bind].
    assert (Hm : mem w seen = true) by (apply mem_In, Hseen; now left).
    rewrite Hm.
    destruct (IH (seen ++ r)) as (seen' & Heq & Hsub).
    + intros x Hx. apply Hws. now right.
    + intros x Hx. apply in_or_app. left. apply Hseen. now right.
    + exists seen'. split; [exact Heq|]. intros x Hx.
      destruct (Hsub x Hx) as [Hin|Hin]; [|now right].
      apply in_app_or in Hin. tauto.
Qed.

Lemma get_all_paths_loop_runs (rs : list (list nat)) (seen : list nat) :
  incl rs runs -> Forall (fun r => r <> []) rs -> NoDup (concat rs) ->
  (forall x, In x seen -> ~ In x (concat rs)) ->
  get_all_paths_loop G (concat rs) seen = Ok rs.
Proof.
  revert seen. induction rs as [|r rs IH]; intros seen Hincl Hne Hnd Hseen.
  - reflexivity.
  - inversion Hne as [|? ? Hr Hne']; subst.
    destruct r as [|v r']; [congruence|].
    assert (Hin : In (v :: r') runs) by (apply Hincl; now left).
    cbn [concat app get_all_paths_loop].
    rewrite (getitem_run (v :: r') v Hin) by now left. cbn [bind].
    assert (Hv : mem v seen = false).
    { apply mem_false. intros Hv. apply (Hseen v Hv). now left. }
    rewrite Hv.
    destruct (get_all_paths_loop_skip (v :: r') r' (concat rs) (seen ++ v :: r') Hin)
      as (seen' & Heq & Hsub).
    + intros x Hx. now right.
    + intros x Hx. apply in_or_app. right. now right.
    + rewrite Heq, IH; [reflexivity | | assumption | |].
      * intros q Hq. apply Hincl. now right.
      * cbn [concat] in Hnd. now apply NoDup_app_remove_l in Hnd.
      * intros x Hx Hc. cbn [concat] in Hnd.
        destruct (Hsub x Hx) as [Hs|Hs].
        -- apply in_app_or in Hs. destruct Hs as [Hs|Hs].
           ++ apply (Hseen x Hs). cbn [concat]. apply in_or_app. now right.
           ++ apply (NoDup_app_disjoint _ _ x Hnd Hs Hc).
        -- apply (NoDup_app_disjoint _ _ x Hnd Hs Hc).
Qed.

End Enumeration.

Lemma get_all_paths_rebuilt (h : hiCMatrix) :
  get_all_paths (_init_path_graph {| hic := h; contig_G := PathGraph.empty |})
  = Ok (label_runs 0 (map Interval.label (cut_intervals h))).
Proof.
  destruct (rebuilt_paths_are_runs h) as (Hperm & Hnodes & Hconcat & Hne).
  unfold get_all_paths. rewrite Hnodes, <- Hconcat.
  apply (get_all_paths_loop_runs _ _ Hperm).
  - rewrite Hconcat. apply seq_NoDup.
  - apply incl_refl.
  - exact Hne.
  - rewrite Hconcat. apply seq_NoDup.
  - intros x [].
Qed.

(** X1: construction followed by enumeration yields the maximal runs of
    consecutive bins with equal labels, in the order of the bins. *)
Theorem get_all_paths_of_constructed_state (hic_matrix : hiCMatrix) :
  get_all_paths (__init__ hic_matrix)
  = Ok (label_runs 0 (map Interval.label (cut_intervals hic_matrix))).
Proof. apply get_all_paths_rebuilt. Qed.

(** What the runs of a list of labels are: they cover the indices in
    order, none is empty, the bins of a run carry one label, and two
    neighbours with the same label are in one run. *)
Lemma label_runs_spec (labels : list string) (k : nat) :
  concat (label_runs k labels) = seq k (length labels)
  /\ Forall (fun r => r <> []) (label_runs k labels)
  /\ (forall r i j, In r (label_runs k labels) -> In i r -> In j r ->
        nth_error labels (i - k) = nth_error labels (j - k))
  /\ (forall i, (k <= i)%nat -> (S i < k + length labels)%nat ->
        nth_error labels (i - k) = nth_error labels (S i - k) ->
        exists r, In r (label_runs k labels) /\ In i r /\ In (S i) r).
Proof.
  revert k. induction labels as [|l rest IH]; intros k.
  - cbn. repeat split; [constructor | intros r i j [] | intros i Hk Hi; lia].
  - destruct (IH (S k)) as (Hcat & Hne & Hsame & Hnext). cbn [label_runs length seq].
    destruct (label_runs (S k) rest) as [|r rs] eqn:Hruns.
    { destruct rest as [|l' rest'].
      - repeat split; [repeat constructor; discriminate | |].
        + intros r i j [<-|[]] [<-|[]] [<-|[]]. reflexivity.
        + intros i Hk Hi. cbn [length] in Hi. lia.
      - exfalso. cbn [length seq] in Hcat. discriminate. }
    destruct rest as [|l' rest'].
    { exfalso. cbn [length seq concat] in Hcat.
      inversion Hne as [|? ? Hr _]; subst. destruct r; [congruence | discriminate]. }
    assert (Hhead : In (S k) r).
    { inversion Hne as [|? ? Hr _]; subst. destruct r as [|a r']; [congruence|].
      cbn [concat app length seq] in Hcat. injection Hcat as -> _. now left. }
    assert (Hge : forall q i, In q (r :: rs) -> In i q -> (S k <= i)%nat).
    { intros q i Hq Hi. assert (Hin : In i (concat (r :: rs))).
      { apply in_concat. now exists q. }
      rewrite Hcat in Hin. apply in_seq in Hin. lia. }
    assert (Hshift : forall i, (S k <= i)%nat ->
              nth_error (l :: l' :: rest') (i - k) = nth_error (l' :: rest') (i - S k)).
    { intros i Hi. replace (i - k)%nat with (S (i - S k)) by lia. reflexivity. }
    destruct (String.eqb_spec l l') as [Heq|Hneq].
    + split; [|split; [|split]].
      * cbn [concat app]. f_equal. exact Hcat.
      * inversion Hne; subst. constructor; [discriminate | assumption].
      * intros q i j [<-|Hq] Hi Hj.
        -- assert (Hlab : forall x, In x (k :: r) ->
                     nth_error (l :: l' :: rest') (x - k) = Some l).
           { intros x [<-|Hx]; [now rewrite Nat.sub_diag|].
             rewrite Hshift by (apply (Hge r); [now left | assumption]).
             rewrite (Hsame r x (S k)); [|now left | assumption | assumption].
             rewrite Nat.sub_diag. cbn. now subst. }
           now rewrite (Hlab i Hi), (Hlab j Hj).
        -- rewrite !Hshift; [|apply (Hge q); [now right | assumption]
                             |apply (Hge q); [now right | assumption]].
           apply (Hsame q); [now right | assumption | assumption].
      * intros i Hk Hi Hlab. destruct (Nat.eq_dec i k) as [->|Hik].
        -- exists (k :: r). split; [now left|]. split; [now left | now right].
        -- destruct (Hnext i) as (q & Hq & Hiq & HSq); [lia | cbn [length] in *; lia | |].
           ++ rewrite <- !Hshift by lia. exact Hlab.
           ++ destruct Hq as [<-|Hq].
              ** exists (k :: r). split; [now left|]. split; now right.
              ** exists q. split; [now right | now split].
    + split; [|split; [|split]].
      * cbn [concat app]. f_equal. exact Hcat.
      * constructor; [discriminate | assumption].
      * intros q i j [<-|Hq] Hi Hj.
        -- destruct Hi as [<-|[]], Hj as [<-|[]]. reflexivity.
        -- rewrite !Hshift; [|apply (Hge q); assumption | apply (Hge q); assumption].
           now apply (Hsame q).
      * intros i Hk Hi Hlab. destruct (Nat.eq_dec i k) as [->|Hik].
        -- exfalso. rewrite Nat.sub_diag in Hlab.
           replace (S k - k)%nat with 1%nat in Hlab by lia. cbn in Hlab. congruence.
        -- destruct (Hnext i) as (q & Hq & Hiq & HSq); [lia | cbn [length] in *; lia | |].
           ++ rewrite <- !Hshift by lia. exact Hlab.
           ++ exists q. split; [now right | now split].
Qed.

(** X2: the paths of a constructed state partition the bins: their
    concatenation is 0, 1, ..., N-1, and no path is empty. *)
Theorem get_all_paths_partitions_bins (hic_matrix : hiCMatrix) :
  exists paths,
    get_all_paths (__init__ hic_matrix) = Ok paths
    /\ concat paths = seq 0 (length (cut_intervals hic_matrix))
    /\ Forall (fun path => path <> []) paths.
Proof.
  exists (label_runs 0 (map Interval.label (cut_intervals hic_matrix))).
  split; [apply get_all_paths_rebuilt|].
  destruct (label_runs_spec (map Interval.label (cut_intervals hic_matrix)) 0)
    as (Hcat & Hne & _). rewrite length_map in Hcat. now split.
Qed.

(** X3: on a constructed state the bins of a path carry one label, and
    two neighbouring bins with the same label are on one path. *)
Theorem constructed_paths_follow_labels (hic_matrix : hiCMatrix) :
  let label_of i :=
    option_map Interval.label (nth_error (cut_intervals hic_matrix) i) in
  exists paths,
    get_all_paths (__init__ hic_matrix) = Ok paths
    /\ (forall path i j, In path paths -> In i path -> In j path ->
          label_of i = label_of j)
    /\ (forall i, (S i < length (cut_intervals hic_matrix))%nat ->
          label_of i = label_of (S i) ->
          exists path, In path paths /\ In i path /\ In (S i) path).
Proof.
  intros label_of.
  exists (label_runs 0 (map Interval.label (cut_intervals hic_matrix))).
  split; [apply get_all_paths_rebuilt|].
  destruct (label_runs_spec (map Interval.label (cut_intervals hic_matrix)) 0)
    as (_ & _ & Hsame & Hnext).
  assert (Hlab : forall i, label_of i
            = nth_error (map Interval.label (cut_intervals hic_matrix)) (i - 0)).
  { intros i. unfold label_of. rewrite Nat.sub_0_r. symmetry. apply nth_error_map. }
  split.
  - intros path i j Hp Hi Hj. rewrite !Hlab. now apply (Hsame path).
  - intros i Hi Heq. apply Hnext; [lia | rewrite length_map; lia |].
    now rewrite <- !Hlab.
Qed.

Lemma sumZ_app (l1 l2 : list Z) : sumZ (l1 ++ l2) = sumZ l1 + sumZ l2.
Proof. induction l1 as [|a l1 IH]; simpl; [reflexivity | rewrite IH; lia]. Qed.

Lemma sumZ_concat {A} (f : A -> Z) (L : list (list A)) :
  sumZ (map (fun r => sumZ (map f r)) L) = sumZ (map f (concat L)).
Proof.
  induction L as [|r L IH]; [reflexivity|].
  cbn [map concat sumZ fold_right]. fold (sumZ (map (fun r => sumZ (map f r)) L)).
  rewrite map_app, sumZ_app, IH. reflexivity.
Qed.

(** The length of bin [i], 0 when there is no such bin. *)
Lemma path_sum_of_bins (self : Scaffolds) (path : list nat) :
  nodes_mirror_bins self ->
  (forall i, In i path -> (i < length (cut_intervals (hic self)))%nat) ->
  path_sum self path
  = Ok (sumZ (map (fun i =>
                     match nth_error (cut_intervals (hic self)) i with
                     | Some b => Interval.end_ b - Interval.start b
                     | None => 0
                     end) path)).
Proof.
  intros [_ Hattr] Hpath. unfold path_sum.
  assert (Hmap : mapM (fun x => a <- PathGraph.node_attr (contig_G self) x ;;
                                Ok (Attr.length a)) path
                 = Ok (map (fun i =>
                     match nth_error (cut_intervals (hic self)) i with
                     | Some b => Interval.end_ b - Interval.start b
                     | None => 0
                     end) path)).
  { induction path as [|i path IH]; [reflexivity|]. cbn [mapM map].
    destruct (nth_error (cut_intervals (hic self)) i) as [b|] eqn:Hb.
    - destruct (Hattr i b Hb) as (a & Ha & _ & _ & _ & _ & Hlen).
      rewrite Ha. cbn [bind]. rewrite IH by (intros j Hj; apply Hpath; now right).
      cbn [bind]. now rewrite Hlen.
    - apply nth_error_None in Hb. specialize (Hpath i (or_introl eq_refl)). lia. }
  rewrite Hmap. reflexivity.
Qed.

Lemma mapM_map {A B} (f : A -> result B) (g : A -> B) (l : list A) :
  (forall a, In a l -> f a = Ok (g a)) -> mapM f l = Ok (map g l).
Proof.
  induction l as [|a l IH]; intros H; [reflexivity|]. cbn [mapM map].
  rewrite (H a) by now left. cbn [bind].
  rewrite IH by (intros b Hb; apply H; now right). reflexivity.
Qed.

Lemma map_nth_error_seq {A B} (g : A -> B) (d : B) (l : list A) :
  map (fun i => match nth_error l i with Some b => g b | None => d end)
    (seq 0 (length l))
  = map g l.
Proof.
  induction l as [|b l IH]; [reflexivity|].
  cbn [length seq map nth_error]. f_equal.
  rewrite <- seq_shift, map_map. exact IH.
Qed.

(** The lengths of the paths of a rebuilt state: one per run of labels,
    the summed lengths of its bins. *)
Lemma get_paths_length_rebuilt (h : hiCMatrix) :
  get_paths_length (_init_path_graph {| hic := h; contig_G := PathGraph.empty |})
  = Ok (map (fun r => sumZ (map (fun i =>
               match nth_error (cut_intervals h) i with
               | Some b => Interval.end_ b - Interval.start b
               | None => 0
               end) r))
          (label_runs 0 (map Interval.label (cut_intervals h)))).
Proof.
  unfold get_paths_length. rewrite get_all_paths_rebuilt. cbn [bind].
  apply mapM_map. intros r Hr.
  set (self := _init_path_graph {| hic := h; contig_G := PathGraph.empty |}).
  assert (Hh : hic self = h) by apply hic_init_path_graph.
  rewrite <- Hh. apply path_sum_of_bins; [apply rebuilt_nodes_mirror_bins|].
  intros i Hi. rewrite Hh.
  destruct (label_runs_spec (map Interval.label (cut_intervals h)) 0) as (Hcat & _).
  assert (Hin : In i (concat (label_runs 0 (map Interval.label (cut_intervals h))))).
  { apply in_concat. now exists r. }
  rewrite Hcat, length_map in Hin. apply in_seq in Hin. lia.
Qed.

(** X4: on a constructed state every bin is counted in exactly one path
    length: the path lengths add up to the summed lengths of the bins. *)
Theorem get_paths_length_covers_bins (hic_matrix : hiCMatrix) :
  exists lengths,
    get_paths_length (__init__ hic_matrix) = Ok lengths
    /\ sumZ lengths
       = sumZ (map (fun b => Interval.end_ b - Interval.start b)
                 (cut_intervals hic_matrix)).
Proof.
  eexists. split; [apply get_paths_length_rebuilt|].
  rewrite sumZ_concat.
  destruct (label_runs_spec (map Interval.label (cut_intervals hic_matrix)) 0)
    as (Hcat & _).
  rewrite Hcat, length_map. now rewrite map_nth_error_seq.
Qed.

(** ** More on the N50 *)

(** X5: whenever the path lengths fit into int64 and a path is longer
    than [min_length], [compute_N50] returns, and what it returns is
    the length of a path above [min_length]; this holds where the
    running sum wraps around and where the half is rounded.  A length
    that does not fit raises OverflowError
    ([compute_N50_overflow]). *)
Theorem compute_N50_returns_a_path_length
    (self : Scaffolds) (min_length : Z) (lengths : list Z) :
  get_paths_length self = Ok lengths ->
  Forall (fun l => - 2 ^ 63 <= l < 2 ^ 63) lengths ->
  Exists (fun l => min_length < l) lengths ->
  exists v, compute_N50 self min_length = Ok v
            /\ In v lengths /\ min_length < v.
Proof.
  intros Hl Hfit Hex. apply (compute_N50_returns self min_length lengths Hl Hfit).
  apply Exists_exists in Hex. destruct Hex as (l & Hin & Hlt).
  intros Hnil.
  assert (Hf : In l (filter (fun l => min_length <? l) lengths)).
  { apply filter_In. split; [assumption | now apply Z.ltb_lt]. }
  rewrite Hnil in Hf. contradiction.
Qed.

Lemma compute_N50_returns_a_path_length_witness :
  exists v, compute_N50 N50_example 2 = Ok v
            /\ In v [20; 30; 10; 10; 10] /\ 2 < v.
Proof.
  apply (compute_N50_returns_a_path_length N50_example 2 [20; 30; 10; 10; 10]).
  - vm_compute. reflexivity.
  - repeat constructor; vm_compute; congruence.
  - constructor. lia.
Defined.

(** The loop with [break] stops at the least index that passes the
    test, when there is one. *)
Lemma for_break_least (test : nat -> bool) (n a cur : nat) :
  (exists i, (a <= i < a + n)%nat /\ test i = true) ->
  let r := for_break test (seq a n) cur in
  (a <= r < a + n)%nat /\ test r = true
  /\ forall j, (a <= j < r)%nat -> test j = false.
Proof.
  revert a cur. induction n as [|n IH]; intros a cur [i [Hi Ht]]; [lia|].
  cbn [seq for_break]. destruct (test a) eqn:Ha.
  - cbv zeta. split; [lia|]. split; [assumption|]. intros j Hj. lia.
  - destruct (IH (S a) a) as (Hr & Htr & Hleast).
    + exists i. split; [|assumption]. destruct (Nat.eq_dec i a) as [->|]; [congruence | lia].
    + cbv zeta. split; [lia|]. split; [assumption|].
      intros j Hj. destruct (Nat.eq_dec j a) as [->|]; [assumption | apply Hleast; lia].
Qed.

Lemma sumZ_nonneg (l : list Z) : Forall (fun x => 0 <= x) l -> 0 <= sumZ l.
Proof. induction 1; simpl; lia. Qed.

Lemma sumZ_filter_le (f : Z -> bool) (l : list Z) :
  Forall (fun x => 0 <= x) l -> sumZ (filter f l) <= sumZ l.
Proof.
  induction 1 as [|a l Ha _ IH]; simpl; [lia|]. destruct (f a); simpl; lia.
Qed.

(** In a sorted list the first [i + 1] entries are at most the entry at
    [i], and the entries from [i] on are at least that entry. *)
Lemma sorted_around (l : list Z) (i : nat) :
  StronglySorted Z.le l -> (i < length l)%nat ->
  Forall (fun x => x <= nth i l 0) (firstn (S i) l)
  /\ Forall (fun x => nth i l 0 <= x) (skipn i l).
Proof.
  intros Hs. revert i. induction Hs as [|a l Hs IH Hall]; intros i Hi; [simpl in Hi; lia|].
  destruct i as [|i].
  - cbn [firstn skipn nth]. split; [repeat constructor; lia|].
    constructor; [lia | exact Hall].
  - cbn [length] in Hi. destruct (IH i) as [Hf Hk]; [lia|].
    cbn [firstn skipn nth]. split; [|exact Hk].
    constructor; [|exact Hf]. rewrite Forall_forall in Hall. apply Hall.
    apply nth_In. lia.
Qed.

(** The value [compute_N50] picks from the sorted lengths above a
    non-negative [min_length]: the lengths below it hold less than half
    of the total, the lengths up to it at least half. *)
Lemma N50_of_sorted (kept : list Z) (i : nat) :
  StronglySorted Z.le kept -> Forall (fun x => 0 < x) kept -> kept <> [] ->
  i = for_break (fun i => sumZ kept <=? 2 * sumZ (firstn (S i) kept))
        (seq 0 (length kept)) 0%nat ->
  (i < length kept)%nat
  /\ 2 * sumZ (filter (fun l => l <? nth i kept 0) kept) < sumZ kept
  /\ sumZ kept <= 2 * sumZ (filter (fun l => l <=? nth i kept 0) kept).
Proof.
  intros Hs Hpos Hne Hi.
  assert (Hnn : Forall (fun x => 0 <= x) kept).
  { revert Hpos. apply Forall_impl. intros; lia. }
  assert (Hlen : (0 < length kept)%nat) by (destruct kept; [congruence | simpl; lia]).
  destruct (for_break_least (fun i => sumZ kept <=? 2 * sumZ (firstn (S i) kept))
              (length kept) 0 0) as (Hr & Ht & Hleast).
  { exists (length kept - 1)%nat. split; [lia|].
    replace (S (length kept - 1)) with (length kept) by lia.
    rewrite firstn_all. apply Z.leb_le. assert (H0 := sumZ_nonneg kept Hnn). lia. }
  rewrite <- Hi in Hr, Ht, Hleast. apply Z.leb_le in Ht.
  destruct (sorted_around kept i Hs) as [Hbefore Hafter]; [lia|].
  set (v := nth i kept 0) in *.
  assert (Hsplit : forall k f,
            sumZ (filter f kept)
            = sumZ (filter f (firstn k kept)) + sumZ (filter f (skipn k kept))).
  { intros k f. rewrite <- (firstn_skipn k kept) at 1.
    now rewrite filter_app, sumZ_app. }
  assert (Hfn : forall k, Forall (fun x => 0 <= x) (firstn k kept)).
  { intros k. apply Forall_forall. intros x Hx. rewrite Forall_forall in Hnn.
    apply Hnn. now apply (incl_firstn k). }
  assert (Hsn : forall k, Forall (fun x => 0 <= x) (skipn k kept)).
  { intros k. apply Forall_forall. intros x Hx. rewrite Forall_forall in Hnn.
    apply Hnn. now apply (incl_skipn k). }
  split; [lia|]. split.
  - rewrite (Hsplit i).
    assert (Hnone : filter (fun l => l <? v) (skipn i kept) = []).
    { clear - Hafter. induction Hafter as [|x l Hx _ IH]; [reflexivity|].
      cbn [filter]. destruct (Z.ltb_spec x v); [lia | exact IH]. }
    rewrite Hnone. cbn [sumZ fold_right].
    assert (Hle := sumZ_filter_le (fun l => l <? v) (firstn i kept) (Hfn i)).
    destruct i as [|i'].
    + cbn [firstn filter sumZ fold_right] in *.
      assert (Htot : 0 < sumZ kept).
      { destruct kept as [|a kept']; [congruence|].
        inversion Hpos as [|? ? Ha _]; inversion Hnn as [|? ? _ Hnn']; subst.
        cbn [sumZ fold_right]. assert (H0 := sumZ_nonneg kept' Hnn').
        unfold sumZ in H0. lia. }
      lia.
    + assert (Hlt := Hleast i'). specialize (Hlt ltac:(lia)).
      apply Z.leb_gt in Hlt. lia.
  - rewrite (Hsplit (S i)).
    assert (Hall : filter (fun l => l <=? v) (firstn (S i) kept) = firstn (S i) kept).
    { apply filter_all. intros x Hx. rewrite Forall_forall in Hbefore.
      apply Z.leb_le. now apply Hbefore. }
    rewrite Hall.
    assert (Hrest : 0 <= sumZ (filter (fun l => l <=? v) (skipn (S i) kept))).
    { apply sumZ_nonneg. apply Forall_forall. intros x Hx. apply filter_In in Hx.
      destruct Hx as [Hx _]. assert (H := Hsn (S i)). rewrite Forall_forall in H.
      now apply H. }
    lia.
Qed.

(** X6: for a non-negative [min_length] and path lengths that fit into
    int64 and add up, above [min_length], to 2^53 at most (so that no
    sum wraps around and the half is not rounded), the value [v] that
    [compute_N50] returns splits the path lengths above [min_length]:
    those below [v] add up to less than half of their total, those up
    to [v] to at least half. *)
Theorem compute_N50_splits_total_length
    (self : Scaffolds) (min_length v : Z) (lengths : list Z) :
  get_paths_length self = Ok lengths ->
  Forall (fun l => - 2 ^ 63 <= l < 2 ^ 63) lengths ->
  sumZ (map Z.abs (filter (fun l => min_length <? l) lengths)) <= 2 ^ 53 ->
  0 <= min_length ->
  compute_N50 self min_length = Ok v ->
  let above := filter (fun l => min_length <? l) lengths in
  2 * sumZ (filter (fun l => l <? v) above) < sumZ above
  /\ sumZ above <= 2 * sumZ (filter (fun l => l <=? v) above).
Proof.
  intros Hl Hfit Hb Hmin Hv above.
  rewrite (compute_N50_unfold self min_length lengths Hl Hfit Hb) in Hv.
  destruct (filtered_sorted min_length lengths) as [Hsorted Hperm].
  set (kept := filter (fun l => min_length <? l) (ZSort.sort lengths)) in *.
  fold above in Hperm.
  assert (Hne : kept <> []).
  { intros Hnil. rewrite Hnil in Hv. destruct lengths; discriminate. }
  assert (Hs : StronglySorted Z.le kept).
  { apply Sorted_StronglySorted; [|assumption]. intros a b c. apply Z.le_trans. }
  assert (Hpos : Forall (fun x => 0 < x) kept).
  { apply Forall_forall. intros x Hx. apply filter_In in Hx.
    destruct Hx as [_ Hx]. apply Z.ltb_lt in Hx. lia. }
  destruct (N50_of_sorted kept _ Hs Hpos Hne eq_refl) as (Hi & Hlow & Hhigh).
  set (i := for_break _ _ _) in *.
  assert (Hval : v = nth i kept 0).
  { destruct kept as [|k0 kept'] eqn:Hk; [congruence|]. rewrite <- Hk in *.
    rewrite (item_nth kept i 0 Hi) in Hv. congruence. }
  rewrite <- Hval in Hlow, Hhigh.
  rewrite <- (sumZ_Permutation _ _ Hperm).
  rewrite <- (sumZ_Permutation _ _ (Permutation_filter (fun l => l <? v) _ _ Hperm)).
  rewrite <- (sumZ_Permutation _ _ (Permutation_filter (fun l => l <=? v) _ _ Hperm)).
  now split.
Qed.

Lemma compute_N50_splits_total_length_witness :
  let above := filter (fun l => 2 <? l) [20; 30; 10; 10; 10] in
  2 * sumZ (filter (fun l => l <? 20) above) < sumZ above
  /\ sumZ above <= 2 * sumZ (filter (fun l => l <=? 20) above).
Proof.
  apply (compute_N50_splits_total_length N50_example 2 20 [20; 30; 10; 10; 10]).
  - vm_compute. reflexivity.
  - repeat constructor; vm_compute; congruence.
  - vm_compute. congruence.
  - lia.
  - vm_compute. reflexivity.
Defined.

(** ** More on the flanks *)

(** X7: [get_flanks] returns at most two flanks for every level of
    recursion that is left, so at most [2 * recursive_repetitions] on
    the outermost call. *)
Theorem get_flanks_at_most_two_per_level (path_length : nat -> Z)
    (path : list nat) (flank_length : Z) (recursive_repetitions counter : nat) :
  (length (get_flanks path_length path flank_length recursive_repetitions counter)
   <= 2 * (recursive_repetitions - counter))%nat.
Proof.
  funelim (get_flanks path_length path flank_length recursive_repetitions counter);
    try clear Heqcall.
  2: { cbn [length]. lia. }
  destruct (length path =? 1)%nat.
  { destruct (_ || _); cbn [length]; lia. }
  destruct (Qlt_bool _ _).
  { destruct (counter0 + 1 =? 1)%nat; cbn [length]; lia. }
  rewrite !length_app.
  set (left_flank := fst (outer_flanks path_length path flank_length)) in *.
  set (right_flank := snd (outer_flanks path_length path flank_length)) in *.
  set (interior := interior_of path left_flank right_flank) in *.
  assert (Hl : (length (if negb (length left_flank =? 0)%nat
                        then [left_flank] else []) <= 1)%nat).
  { destruct (negb (length left_flank =? 0)%nat); cbn [length]; lia. }
  assert (Hr : (length (if negb (length right_flank =? 0)%nat
                        then [right_flank] else []) <= 1)%nat).
  { destruct (negb (length right_flank =? 0)%nat); cbn [length]; lia. }
  assert (Hi : (length (if negb (length interior =? 0)%nat
                        then get_flanks path_length interior flank_length
                               recursive_repetitions (counter0 + 1)
                        else [])
                <= 2 * (recursive_repetitions - (counter0 + 1)))%nat).
  { destruct (negb (length interior =? 0)%nat); [exact H | cbn [length]; lia]. }
  lia.
Qed.

Lemma outer_flanks_nonempty (path_length : nat -> Z) (path : list nat)
    (flank_length : Z) :
  (2 <= length path)%nat ->
  fst (outer_flanks path_length path flank_length) <> []
  /\ snd (outer_flanks path_length path flank_length) <> [].
Proof.
  intros Hlen. unfold outer_flanks.
  set (right0 := rev _). set (left1 := if negb _ then _ else _).
  destruct (length left1 =? 0)%nat eqn:Hl; cbn [orb].
  { cbn [fst snd]. now apply halves_nonempty. }
  destruct (length right0 =? 0)%nat eqn:Hr.
  { cbn [fst snd]. now apply halves_nonempty. }
  cbn [fst snd]. split; intros Hnil.
  - rewrite Hnil in Hl. discriminate.
  - rewrite Hnil in Hr. discriminate.
Qed.

(** On the outermost call a path is never lost whole. *)
Lemma get_flanks_outermost (path_length : nat -> Z) (path : list nat)
    (flank_length : Z) (recursive_repetitions counter : nat) :
  counter = 0%nat -> (1 <= recursive_repetitions)%nat -> path <> [] ->
  (1 <= length (get_flanks path_length path flank_length
                  recursive_repetitions counter))%nat
  /\ ((2 <= length path)%nat ->
      (2 <= length (get_flanks path_length path flank_length
                      recursive_repetitions counter))%nat).
Proof.
  funelim (get_flanks path_length path flank_length recursive_repetitions counter);
    intros Hc Hreps Hne; try clear Heqcall; subst.
  2: { lia. }
  destruct (Nat.eqb_spec (length path) 1) as [Hone|Hone].
  { cbn [Nat.add Nat.eqb]. rewrite orb_true_r. cbn [length]. split; lia. }
  assert (Hlen : (2 <= length path)%nat).
  { destruct path as [|a [|b path]]; simpl in *; try congruence; lia. }
  destruct (Qlt_bool _ _).
  { cbn [Nat.add Nat.eqb length]. split; lia. }
  destruct (outer_flanks_nonempty path_length path flank_length Hlen) as [Hl Hr].
  rewrite !length_app.
  destruct (fst (outer_flanks path_length path flank_length)); [congruence|].
  destruct (snd (outer_flanks path_length path flank_length)); [congruence|].
  cbn [length Nat.eqb negb]. split; lia.
Qed.

(** X8: on the outermost call with a depth of at least 1, a non-empty
    path gives at least one flank, a path of two bins or more at least
    two, and every flank is a non-empty list of bins of the path. *)
Theorem get_flanks_keeps_the_path (path_length : nat -> Z) (path : list nat)
    (flank_length : Z) (max_depth : nat) :
  path <> [] -> (1 <= max_depth)%nat ->
  let flanks := get_flanks path_length path flank_length max_depth 0 in
  (1 <= length flanks)%nat
  /\ ((2 <= length path)%nat -> (2 <= length flanks)%nat)
  /\ Forall (fun flank => flank <> [] /\ forall i, In i flank -> In i path) flanks.
Proof.
  intros Hne Hd flanks.
  destruct (get_flanks_outermost path_length path flank_length max_depth 0
              eq_refl Hd Hne) as [H1 H2].
  split; [exact H1|]. split; [exact H2|].
  apply (get_flanks_nonempty_incl path_length path flank_length max_depth 0 Hne).
Qed.

Lemma get_flanks_keeps_the_path_witness :
  let flanks :=
    get_flanks (node_length five_bins_example) [0; 1; 2; 3; 4]%nat 20 30 0 in
  (1 <= length flanks)%nat
  /\ ((2 <= length [0; 1; 2; 3; 4]%nat)%nat -> (2 <= length flanks)%nat)
  /\ Forall (fun flank => flank <> []
                          /\ forall i, In i flank -> In i [0; 1; 2; 3; 4]%nat) flanks.
Proof.
  apply (get_flanks_keeps_the_path (node_length five_bins_example)
           [0; 1; 2; 3; 4]%nat 20 30).
  - discriminate.
  - lia.
Defined.

(** X9: where every bin the scan visits is as long as the bin the
    generator reads, [_get_path_flank] returns the prefix it is
    documented to return: the scan stops, before adding the next bin,
    once the summed length of the bins collected so far is within the
    tolerance band or above it. *)
Theorem _get_path_flank_on_equal_bins (path_length : nat -> Z)
    (tolerance_min tolerance_max : Q) (x : nat) (_path : list nat) :
  (forall n, In n _path -> path_length n = path_length x) ->
  _get_path_flank path_length tolerance_min tolerance_max x _path
  = spec_path_flank_loop path_length tolerance_min tolerance_max [] _path.
Proof.
  intros Heq. unfold _get_path_flank. apply flank_loop_uniform.
  intros n [[]|Hn]. now apply Heq.
Qed.

Lemma _get_path_flank_on_equal_bins_witness :
  _get_path_flank (node_length merge_example) (inject_Z 20 * 0.75)%Q
    (inject_Z 20 * 1.25)%Q 5%nat [0; 1; 2; 3; 4; 5]%nat
  = spec_path_flank_loop (node_length merge_example) (inject_Z 20 * 0.75)%Q
      (inject_Z 20 * 1.25)%Q [] [0; 1; 2; 3; 4; 5]%nat.
Proof.
  apply (_get_path_flank_on_equal_bins (node_length merge_example)).
  intros n Hn. repeat (destruct Hn as [<-|Hn]; [reflexivity|]). contradiction.
Defined.

Lemma last_skipn {A} (l : list A) (j : nat) (d : A) :
  (j < length l)%nat -> last (skipn j l) d = last l d.
Proof.
  revert j. induction l as [|a l IH]; intros j Hj; [simpl in Hj; lia|].
  destruct j as [|j]; [reflexivity|]. cbn [skipn]. cbn [length] in Hj.
  rewrite IH by lia. destruct l; [simpl in Hj; lia | reflexivity].
Qed.

Lemma filter_none {A} (f : A -> bool) (l : list A) :
  (forall a, In a l -> f a = false) -> filter f l = [].
Proof.
  induction l as [|a l IH]; intros H; [reflexivity|]. cbn [filter].
  rewrite (H a) by now left. apply IH. intros b Hb. apply H. now right.
Qed.

Lemma suffix_from_head (a : nat) (l : list nat) (j : nat) :
  NoDup (a :: l) -> In a (skipn j (a :: l)) -> j = 0%nat.
Proof.
  intros Hnd Hin. destruct j as [|j]; [reflexivity|]. exfalso.
  cbn [skipn] in Hin. inversion Hnd as [|? ? Ha _]; subst.
  apply Ha. now apply (incl_skipn j).
Qed.

(** The two outer flanks of a path without repeated bins: the left one
    starts with the first bin, the right one ends with the last. *)
Lemma outer_flanks_ends (path_length : nat -> Z) (a : nat) (path : list nat)
    (flank_length : Z) :
  NoDup (a :: path) -> (2 <= length (a :: path))%nat ->
  (exists rest, fst (outer_flanks path_length (a :: path) flank_length) = a :: rest)
  /\ snd (outer_flanks path_length (a :: path) flank_length) <> []
  /\ last (snd (outer_flanks path_length (a :: path) flank_length)) 0%nat
     = last (a :: path) 0%nat.
Proof.
  intros Hnd Hlen. set (p := a :: path) in *.
  assert (Hhalf : (1 <= length p / 2 < length p)%nat).
  { assert (Hdiv := Nat.div_mod_eq (length p) 2).
    assert (Hmod : (length p mod 2 < 2)%nat) by (apply Nat.mod_upper_bound; lia).
    lia. }
  assert (Hhalves : (exists rest, firstn (length p / 2) p = a :: rest)
                    /\ skipn (length p / 2) p <> []
                    /\ last (skipn (length p / 2) p) 0%nat = last p 0%nat).
  { split; [|split].
    - destruct (length p / 2)%nat as [|h] eqn:Hh; [lia|]. unfold p. cbn [firstn].
      eexists. reflexivity.
    - apply (halves_nonempty p Hlen).
    - apply last_skipn. lia. }
  unfold outer_flanks.
  destruct (path_flank_prefix path_length (inject_Z flank_length * 0.75)%Q
              (inject_Z flank_length * 1.25)%Q (last p 0%nat) p) as [k ->].
  destruct (path_flank_prefix path_length (inject_Z flank_length * 0.75)%Q
              (inject_Z flank_length * 1.25)%Q (last p 0%nat) (rev p)) as [k' ->].
  rewrite firstn_rev, rev_involutive.
  set (j := (length p - k')%nat).
  set (right0 := skipn j p). set (left0 := firstn k p).
  set (over := filter (fun y => mem y right0) left0).
  assert (Hj : (length right0 =? 0)%nat = false -> (j < length p)%nat).
  { intros Hr0. destruct (Nat.lt_ge_cases j (length p)) as [|Hge]; [assumption|].
    unfold right0 in Hr0. rewrite skipn_all2 in Hr0 by assumption. discriminate. }
  assert (Hleft0 : left0 <> [] -> exists rest0, left0 = a :: rest0).
  { unfold left0. destruct k as [|k]; [cbn; congruence|].
    intros _. unfold p. cbn [firstn]. eexists. reflexivity. }
  destruct (length over =? 0)%nat eqn:Hover; cbn [negb].
  - destruct (length left0 =? 0)%nat eqn:Hl1; cbn [orb]; [exact Hhalves|].
    destruct (length right0 =? 0)%nat eqn:Hr0; [exact Hhalves|].
    cbn [fst snd]. split; [|split].
    + apply Hleft0. intros Hnil. rewrite Hnil in Hl1. discriminate.
    + intros Hnil. rewrite Hnil in Hr0. discriminate.
    + unfold right0. apply last_skipn. now apply Hj.
  - destruct (length (filter (fun y => negb (mem y over)) left0) =? 0)%nat eqn:Hl1;
      cbn [orb]; [exact Hhalves|].
    destruct (length right0 =? 0)%nat eqn:Hr0; [exact Hhalves|].
    cbn [fst snd]. split; [|split].
    + destruct Hleft0 as [rest0 Hleft0].
      { intros Hnil. rewrite Hnil in Hl1. discriminate. }
      assert (Ha : mem a over = false).
      { apply mem_false. intros Hin. unfold over in Hin. apply filter_In in Hin.
        destruct Hin as [_ Hin]. apply mem_In in Hin. unfold right0 in Hin.
        assert (Hj0 := suffix_from_head a path j Hnd Hin).
        assert (Hov : over = left0).
        { unfold over. apply filter_all. intros y Hy. apply mem_In.
          unfold right0. rewrite Hj0. cbn [skipn]. now apply (incl_firstn k). }
        assert (Hall : filter (fun y => negb (mem y over)) left0 = []).
        { rewrite Hov. apply filter_none. intros y Hy.
          apply negb_false_iff. now apply mem_In. }
        rewrite Hall in Hl1. discriminate. }
      rewrite Hleft0. cbn [filter]. rewrite Ha. cbn [negb]. eexists. reflexivity.
    + intros Hnil. rewrite Hnil in Hr0. discriminate.
    + unfold right0. apply last_skipn. now apply Hj.
Qed.

(** X10: on the outermost call with a depth of at least 1, the flanks of
    a path of two bins or more without repeated bins begin with a flank
    that starts with the first bin of the path and end with a flank
    that ends with its last bin. *)
Theorem get_flanks_keeps_the_ends (path_length : nat -> Z) (path : list nat)
    (flank_length : Z) (max_depth : nat) :
  NoDup path -> (2 <= length path)%nat -> (1 <= max_depth)%nat ->
  exists first_flank middle last_flank,
    get_flanks path_length path flank_length max_depth 0
    = first_flank :: middle ++ [last_flank]
    /\ hd_error first_flank = hd_error path
    /\ last_flank <> []
    /\ last last_flank 0%nat = last path 0%nat.
Proof.
  intros Hnd Hlen Hd.
  assert (Hgen : forall counter, counter = 0%nat ->
            exists first_flank middle last_flank,
              get_flanks path_length path flank_length max_depth counter
              = first_flank :: middle ++ [last_flank]
              /\ hd_error first_flank = hd_error path
              /\ last_flank <> []
              /\ last last_flank 0%nat = last path 0%nat).
  { intros counter.
    funelim (get_flanks path_length path flank_length max_depth counter);
      intros Hc; try clear Heqcall; subst.
    2: { lia. }
    destruct (Nat.eqb_spec (length path) 1) as [Hone|_]; [lia|].
    destruct path as [|a path]; [simpl in Hlen; lia|].
    destruct (outer_flanks_ends path_length a path flank_length Hnd Hlen)
      as ([rest Hleft] & Hright & Hlast).
    assert (Hhalf : (1 <= length (a :: path) / 2 < length (a :: path))%nat).
    { assert (Hdiv := Nat.div_mod_eq (length (a :: path)) 2).
      assert (Hmod : (length (a :: path) mod 2 < 2)%nat)
        by (apply Nat.mod_upper_bound; lia).
      lia. }
    destruct (Qlt_bool _ _).
    { cbn [Nat.add Nat.eqb].
      exists (firstn (length (a :: path) / 2) (a :: path)), [],
             (skipn (length (a :: path) / 2) (a :: path)).
      split; [reflexivity|]. split; [|split].
      - destruct (length (a :: path) / 2)%nat; [lia | reflexivity].
      - apply (halves_nonempty (a :: path) Hlen).
      - apply last_skipn. lia. }
    rewrite Hleft.
    destruct (snd (outer_flanks path_length (a :: path) flank_length))
      as [|b right_flank] eqn:Hsnd; [congruence|].
    cbn [length Nat.eqb negb app].
    eexists (a :: rest), _, (b :: right_flank).
    split; [reflexivity|]. split; [reflexivity|]. split; [discriminate | exact Hlast]. }
  now apply Hgen.
Qed.

Lemma get_flanks_keeps_the_ends_witness :
  exists first_flank middle last_flank,
    get_flanks (node_length five_bins_example) [0; 1; 2; 3; 4]%nat 20 30 0
    = first_flank :: middle ++ [last_flank]
    /\ hd_error first_flank = hd_error [0; 1; 2; 3; 4]%nat
    /\ last_flank <> []
    /\ last last_flank 0%nat = last [0; 1; 2; 3; 4]%nat 0%nat.
Proof.
  apply (get_flanks_keeps_the_ends (node_length five_bins_example)
           [0; 1; 2; 3; 4]%nat 20 30).
  - repeat (constructor; [simpl; intuition discriminate|]). constructor.
  - simpl. lia.
  - lia.
Defined.

(** ** The bins a flank partition leaves out *)







(** The three ways a block is left out or not, on the examples of the
    docstring: nothing is missing from the six bins; of the five bins
    the single bin 2, of 10 bp against 0.75 * 20, is missing between
    the flanks [0, 1] and [3, 4]; with depth 1 the bins 1, 2 and 3 are
    missing after the two flanks of the only level. *)
Example get_flanks_left_out :
  concat (get_flanks (node_length merge_example) [0; 1; 2; 3; 4; 5]%nat 20 30 0)
  = [0; 1; 2; 3; 4; 5]%nat
  /\ concat (get_flanks (node_length five_bins_example) [0; 1; 2; 3; 4]%nat 20 30 0)
     = [0; 1]%nat ++ [3; 4]%nat
  /\ (inject_Z (node_length five_bins_example 2) <= inject_Z 20 * 0.75)%Q
  /\ get_flanks (node_length five_bins_example) [0; 1; 2; 3; 4]%nat 10 1 0
     = [[0]; [4]]%nat.
Proof.
  split; [reflexivity|]. split; [reflexivity|]. split; [|reflexivity].
  vm_compute. discriminate.
Qed.

(** ** More on merging *)

Lemma new_cut_interval_positive (ipdb : debugger) (self : Scaffolds)
    (sub_path : list nat) (b : Interval.t) :
  new_cut_interval ipdb self sub_path = Ok b -> Interval.start b < Interval.end_ b.
Proof.
  unfold new_cut_interval. intros H.
  bind_ok H first_node Hf. bind_ok H last_node Hl.
  bind_ok H first_attr Hfa. bind_ok H last_attr Hla.
  bind_ok H u Hu.
  destruct (Z.ltb_spec (Attr.start first_attr) (Attr.end_ last_attr)) as [Hlt|Hge];
    cbn [negb] in H; [|discriminate].
  injection H as <-. exact Hlt.
Qed.

(** X11: when [merge_to_size] completes there were at least two reduce
    groups, the routines it calls returned, the new matrix is the
    corrected reduction of the old one over these groups and was saved,
    there is one new bin per group, and every new bin ends after it
    starts. *)
Theorem merge_to_size_completed
    (reduce_matrix : matrix_t -> list (list nat) -> result matrix_t)
    (iterativeCorrection : matrix_t -> result matrix_t)
    (save : hiCMatrix -> result unit) (ipdb : debugger)
    (self self' : Scaffolds) (target_length : Z) (h : hiCMatrix) :
  merge_to_size reduce_matrix iterativeCorrection save ipdb self target_length
  = Ok (self', ReturnHic h) ->
  exists groups,
    reduce_groups self target_length = Ok groups
    /\ (2 <= length groups)%nat
    /\ hic self' = h
    /\ (exists reduced,
          reduce_matrix (matrix (hic self)) groups = Ok reduced
          /\ iterativeCorrection reduced = Ok (matrix h))
    /\ save h = Ok tt
    /\ length (cut_intervals h) = length groups
    /\ Forall (fun b => Interval.start b < Interval.end_ b) (cut_intervals h).
Proof.
  intros Hcall. unfold merge_to_size in Hcall.
  bind_ok Hcall groups Hgroups. exists groups. split; [reflexivity|].
  destruct (length groups =? 0)%nat.
  { bind_ok Hcall u Hu. injection Hcall as _ Hret. discriminate. }
  bind_ok Hcall new_cut_intervals Hivs.
  destruct (Nat.ltb_spec (length groups) 2) as [Hlt|Hge].
  { injection Hcall as _ Hret. discriminate. }
  bind_ok Hcall reduced Hreduced. bind_ok Hcall corrected Hcorrected.
  bind_ok Hcall u Hsaved. destruct u.
  injection Hcall as <- <-.
  rewrite hic_init_path_graph in Hsaved |- *. cbn [hic matrix cut_intervals].
  split; [assumption|]. split; [reflexivity|].
  split; [exists reduced; now split|]. split; [exact Hsaved|]. split.
  - apply (mapM_length _ _ _ Hivs).
  - apply mapM_Forall2 in Hivs. revert Hivs. apply Forall2_right.
    intros g b. apply new_cut_interval_positive.
Qed.

Lemma merge_to_size_completed_witness :
  exists self' h,
    merge_to_size block_sum no_correction saved Continue merge_example 20 = Ok (self', ReturnHic h)
    /\ exists groups,
    reduce_groups merge_example 20 = Ok groups
    /\ (2 <= length groups)%nat
    /\ hic self' = h
    /\ (exists reduced,
          block_sum (matrix (hic merge_example)) groups = Ok reduced
          /\ no_correction reduced = Ok (matrix h))
    /\ saved h = Ok tt
    /\ length (cut_intervals h) = length groups
    /\ Forall (fun b => Interval.start b < Interval.end_ b) (cut_intervals h).
Proof.
  eexists. eexists. split; [vm_compute; reflexivity|].
  apply (merge_to_size_completed block_sum no_correction saved Continue
           merge_example _ 20 _).
  vm_compute. reflexivity.
Defined.

Lemma merge_paths_flatten_ok (self : Scaffolds) (target_length : Z)
    (paths paths_flatten : list (list nat)) :
  (forall p x, In p paths -> In x p -> In x (PathGraph.nodes (contig_G self))) ->
  merge_paths_flatten self target_length paths paths_flatten
  = Ok (paths_flatten
        ++ flat_map (fun p => get_flanks (node_length self) p target_length 100 0)
             paths).
Proof.
  revert paths_flatten. induction paths as [|p paths IH]; intros acc Hnodes.
  - cbn. now rewrite app_nil_r.
  - cbn [merge_paths_flatten flat_map]. unfold get_flanks_of.
    destruct (mapM_ok (PathGraph.node_attr (contig_G self)) p) as [attrs Hattrs].
    { intros x Hx. apply node_attr_of_node. apply (Hnodes p x); [now left | assumption]. }
    rewrite Hattrs. cbn [bind]. rewrite IH.
    + now rewrite app_assoc.
    + intros q x Hq Hx. apply (Hnodes q x); [now right | assumption].
Qed.

(** On a rebuilt state the reduce groups can be computed, and there is
    none exactly when there is no bin. *)
Lemma reduce_groups_rebuilt (h : hiCMatrix) (target_length : Z) :
  exists groups,
    reduce_groups (_init_path_graph {| hic := h; contig_G := PathGraph.empty |})
      target_length = Ok groups
    /\ (groups = [] <-> cut_intervals h = []).
Proof.
  set (self := _init_path_graph {| hic := h; contig_G := PathGraph.empty |}).
  destruct (rebuilt_paths_are_runs h) as (_ & Hnodes & Hcat & Hne).
  fold self in Hnodes. cbv zeta in Hcat, Hne.
  assert (Hruns : label_runs 0 (map Interval.label (cut_intervals h)) = []
                  <-> cut_intervals h = []).
  { split; intros Hnil; [|now rewrite Hnil].
    destruct (cut_intervals h); [reflexivity|].
    exfalso. revert Hnil. apply label_runs_nonempty. discriminate. }
  remember (label_runs 0 (map Interval.label (cut_intervals h))) as runs eqn:Hr.
  exists (flat_map (fun p => get_flanks (node_length self) p target_length 100 0) runs).
  split.
  - unfold reduce_groups. unfold self at 1. rewrite get_all_paths_rebuilt, <- Hr.
    cbn [bind]. apply (merge_paths_flatten_ok self target_length runs []).
    intros p x Hp Hx. rewrite Hnodes, <- Hcat. apply in_concat. now exists p.
  - rewrite <- Hruns. split; [|now intros ->].
    intros Hnil. destruct runs as [|r rs]; [reflexivity|]. exfalso.
    cbn [flat_map] in Hnil. apply app_eq_nil in Hnil. destruct Hnil as [Hnil _].
    inversion Hne as [|? ? Hrne _]; subst.
    destruct (get_flanks_outermost (node_length self) r target_length 100 0
                eq_refl ltac:(lia) Hrne) as [H1 _].
    rewrite Hnil in H1. cbn in H1. lia.
Qed.

(** X12: on a constructed state without bins [merge_to_size] raises
    NameError, and it never raises on behalf of a node or an index it
    looks up: with bins, an exception it raises is the AssertionError of
    a group that does not end after it starts, what the breakpoint in
    front of that assertion raises, or an exception of one of the
    routines it calls. *)
Theorem merge_to_size_exceptions_on_constructed_state
    (reduce_matrix : matrix_t -> list (list nat) -> result matrix_t)
    (iterativeCorrection : matrix_t -> result matrix_t)
    (save : hiCMatrix -> result unit) (ipdb : debugger)
    (hic_matrix : hiCMatrix) (target_length : Z) :
  match merge_to_size reduce_matrix iterativeCorrection save ipdb (__init__ hic_matrix)
          target_length with
  | Raise e =>
      (e = NameError "inspect" /\ cut_intervals hic_matrix = [])
      \/ (cut_intervals hic_matrix <> []
          /\ (e = AssertionError
              \/ e = misordered_exn ipdb
              \/ (exists m groups, reduce_matrix m groups = Raise e)
              \/ (exists m, iterativeCorrection m = Raise e)
              \/ (exists h, save h = Raise e)))
  | Ok _ => cut_intervals hic_matrix <> []
  end.
Proof.
  destruct (reduce_groups_rebuilt hic_matrix target_length) as (groups & Hgroups & Hnil).
  unfold __init__, merge_to_size. rewrite Hgroups. cbn [bind].
  destruct (length groups =? 0)%nat eqn:Hlen.
  { apply length_zero_nil in Hlen. left. split; [reflexivity | now apply Hnil]. }
  assert (Hne : cut_intervals hic_matrix <> []).
  { intros Hivs. apply Hnil in Hivs. rewrite Hivs in Hlen. discriminate. }
  destruct (mapM _ groups) as [new_cut_intervals|e] eqn:Hivs; cbn [bind].
  - destruct (length groups <? 2)%nat; [exact Hne|].
    destruct (reduce_matrix _ groups) as [reduced|e] eqn:Hreduced; cbn [bind].
    2: { right. split; [exact Hne|]. right; right; left. eexists. eexists. exact Hreduced. }
    destruct (iterativeCorrection reduced) as [corrected|e] eqn:Hcorrected; cbn [bind].
    2: { right. split; [exact Hne|]. right; right; right; left. eexists. exact Hcorrected. }
    destruct (save _) as [u|e] eqn:Hsaved; cbn [bind]; [exact Hne|].
    right. split; [exact Hne|]. right; right; right; right. eexists. exact Hsaved.
  - right. split; [exact Hne|].
    apply mapM_raise, Exists_exists in Hivs. destruct Hivs as (g & Hin & Hraise).
    assert (Hall := reduce_groups_of_nodes _ _ _ Hgroups).
    rewrite Forall_forall in Hall.
    destruct (new_cut_interval_of_group ipdb _ g (Hall g Hin))
      as (f & l & fa & la & _ & _ & _ & _ & Heq).
    rewrite Heq in Hraise.
    destruct (_ <? _); [right; left; congruence|].
    destruct (_ =? _); [left; congruence | discriminate].
Qed.

(** ** More on length filtering *)

Lemma mapM_item_all {A} (l pre : list A) :
  mapM (item (pre ++ l)) (seq (length pre) (length l)) = Ok l.
Proof.
  revert pre. induction l as [|a l IH]; intros pre; [reflexivity|].
  cbn [length seq mapM]. unfold item at 1.
  rewrite nth_error_app2 by lia. rewrite Nat.sub_diag. cbn [nth_error bind].
  replace (pre ++ a :: l) with ((pre ++ [a]) ++ l) by now rewrite <- app_assoc.
  replace (S (length pre)) with (length (pre ++ [a])) by (rewrite length_app; simpl; lia).
  now rewrite IH.
Qed.

Lemma mapM_item_seq {A} (l : list A) : mapM (item l) (seq 0 (length l)) = Ok l.
Proof. apply (mapM_item_all l []). Qed.

Lemma mapM_item_ok {A} (l : list A) (idx : list nat) :
  (forall i, In i idx -> (i < length l)%nat) -> exists r, mapM (item l) idx = Ok r.
Proof.
  intros Hidx. apply mapM_ok. intros i Hi. unfold item.
  destruct (nth_error l i) as [a|] eqn:Ha; [now exists a|].
  apply nth_error_None in Ha. specialize (Hidx i Hi). lia.
Qed.

(** The converse of [remove_bins_to_keep_spec]: once the path lengths
    can be read, the loop returns the members of the retained paths. *)
Lemma remove_bins_to_keep_ok (self : Scaffolds) (min_length : Z)
    (paths : list (list nat)) (lengths : list Z) (to_keep : list nat) :
  mapM (path_sum self) paths = Ok lengths ->
  remove_bins_to_keep self min_length paths to_keep
  = Ok (to_keep ++ concat (retained_paths min_length paths lengths)).
Proof.
  revert lengths to_keep. induction paths as [|p paths IH]; intros lengths to_keep H.
  - cbn in H. injection H as <-. cbn. now rewrite app_nil_r.
  - cbn [mapM] in H. bind_ok H s Hs. bind_ok H ls Hls. injection H as <-.
    cbn [remove_bins_to_keep]. rewrite Hs. cbn [bind].
    unfold retained_paths. cbn [combine filter snd].
    destruct (min_length <? s).
    + rewrite (IH ls) by reflexivity. cbn [map fst concat].
      unfold retained_paths. now rewrite <- app_assoc.
    + now rewrite (IH ls).
Qed.

Lemma retained_paths_incl (min_length : Z) (paths : list (list nat))
    (lengths : list Z) :
  incl (retained_paths min_length paths lengths) paths.
Proof.
  unfold retained_paths. intros p Hp. apply in_map_iff in Hp.
  destruct Hp as ([q s] & <- & Hin). apply filter_In in Hin.
  destruct Hin as [Hin _]. now apply in_combine_l in Hin.
Qed.

Lemma retained_paths_all (min_length : Z) (paths : list (list nat))
    (lengths : list Z) :
  length lengths = length paths -> Forall (fun l => min_length < l) lengths ->
  retained_paths min_length paths lengths = paths.
Proof.
  unfold retained_paths. revert lengths.
  induction paths as [|p paths IH]; intros [|s lengths] Hlen Hall;
    try reflexivity; try discriminate.
  inversion Hall as [|? ? Hs Hrest]; subst. cbn [combine filter snd].
  apply Z.ltb_lt in Hs. rewrite Hs. cbn [map fst]. f_equal.
  apply IH; [simpl in Hlen; lia | assumption].
Qed.

(** X13: on a constructed state whose matrix has one row and one column
    per bin, [remove_bins_by_size] returns for every [min_length], and
    the state it returns is of the same kind. *)
Theorem remove_bins_by_size_returns (hic_matrix : hiCMatrix) (min_length : Z) :
  matrix_is_square hic_matrix ->
  exists self',
    remove_bins_by_size (__init__ hic_matrix) min_length = Ok self'
    /\ matrix_is_square (hic self').
Proof.
  intros [Hrows Hcols]. unfold __init__.
  set (self := _init_path_graph {| hic := hic_matrix; contig_G := PathGraph.empty |}).
  assert (Hh : hic self = hic_matrix) by apply hic_init_path_graph.
  destruct (label_runs_spec (map Interval.label (cut_intervals hic_matrix)) 0)
    as (Hcat & _). rewrite length_map in Hcat.
  unfold remove_bins_by_size. unfold self at 1. rewrite get_all_paths_rebuilt.
  cbn [bind]. fold self.
  assert (Hlen := get_paths_length_rebuilt hic_matrix). fold self in Hlen.
  unfold get_paths_length in Hlen. unfold self at 1 in Hlen.
  rewrite get_all_paths_rebuilt in Hlen. cbn [bind] in Hlen. fold self in Hlen.
  rewrite (remove_bins_to_keep_ok _ _ _ _ [] Hlen). cbn [bind app].
  set (to_keep := concat (retained_paths _ _ _)).
  assert (Hkeep : forall i, In i to_keep -> (i < length (cut_intervals hic_matrix))%nat).
  { intros i Hi. unfold to_keep in Hi. apply in_concat in Hi.
    destruct Hi as (p & Hp & Hip). apply retained_paths_incl in Hp.
    assert (Hin : In i (concat (label_runs 0
                                  (map Interval.label (cut_intervals hic_matrix))))).
    { apply in_concat. now exists p. }
    rewrite Hcat in Hin. apply in_seq in Hin. lia. }
  destruct (length to_keep =? 0)%nat; cbn [negb].
  { exists self. split; [reflexivity|]. rewrite Hh. now split. }
  rewrite Hh.
  destruct (mapM_item_ok (matrix hic_matrix) to_keep) as [rows Hr].
  { intros i Hi. rewrite Hrows. now apply Hkeep. }
  unfold take_rows. rewrite Hr. cbn [bind].
  assert (Hrows_of : Forall (fun row => length row
                                        = length (cut_intervals hic_matrix)) rows).
  { apply mapM_Forall2 in Hr. revert Hr. apply Forall2_right.
    intros i row Hitem. unfold item in Hitem.
    destruct (nth_error (matrix hic_matrix) i) as [row'|] eqn:Hn; [|discriminate].
    injection Hitem as <-. rewrite Forall_forall in Hcols.
    apply Hcols. eapply nth_error_In, Hn. }
  destruct (mapM_ok (fun row => mapM (item row) to_keep) rows) as [new_matrix Hc].
  { intros row Hrow. apply mapM_item_ok. intros i Hi.
    rewrite Forall_forall in Hrows_of. rewrite (Hrows_of row Hrow). now apply Hkeep. }
  unfold take_cols. rewrite Hc. cbn [bind].
  destruct (mapM_item_ok (cut_intervals hic_matrix) to_keep Hkeep) as [ivs Hivs].
  rewrite Hivs. cbn [bind]. eexists. split; [reflexivity|].
  rewrite hic_init_path_graph. cbn [hic update_matrix].
  unfold matrix_is_square, update_matrix. cbn [matrix cut_intervals].
  assert (Hl1 := mapM_length _ _ _ Hivs). assert (Hl2 := mapM_length _ _ _ Hc).
  assert (Hl3 := mapM_length _ _ _ Hr). split; [congruence|].
  apply mapM_Forall2 in Hc. revert Hc. apply Forall2_right.
  intros row0 row Hrow. rewrite (mapM_length _ _ _ Hrow). congruence.
Qed.

Lemma remove_bins_by_size_returns_witness :
  exists self',
    remove_bins_by_size
      (__init__ (get_test_matrix
         [ Interval.make "c-0" 0 10 1; Interval.make "c-0" 10 20 1;
           Interval.make "c-2" 0 10 1 ])) 15 = Ok self'
    /\ matrix_is_square (hic self').
Proof.
  apply (remove_bins_by_size_returns
           (get_test_matrix
              [ Interval.make "c-0" 0 10 1; Interval.make "c-0" 10 20 1;
                Interval.make "c-2" 0 10 1 ]) 15).
  split; [reflexivity|]. repeat constructor.
Defined.

Lemma record_eta (h : hiCMatrix) :
  {| matrix := matrix h; cut_intervals := cut_intervals h |} = h.
Proof. destruct h. reflexivity. Qed.

(** X14: on a constructed state whose matrix has one row and one column
    per bin, a [min_length] below the length of every path removes
    nothing: [remove_bins_by_size] returns the state it was given. *)
Theorem remove_bins_by_size_keeps_long_paths
    (hic_matrix : hiCMatrix) (min_length : Z) (lengths : list Z) :
  matrix_is_square hic_matrix ->
  get_paths_length (__init__ hic_matrix) = Ok lengths ->
  Forall (fun l => min_length < l) lengths ->
  remove_bins_by_size (__init__ hic_matrix) min_length = Ok (__init__ hic_matrix).
Proof.
  intros [Hrows Hcols] Hlengths Hall. unfold __init__ in *.
  set (self := _init_path_graph {| hic := hic_matrix; contig_G := PathGraph.empty |}) in *.
  assert (Hh : hic self = hic_matrix) by apply hic_init_path_graph.
  destruct (label_runs_spec (map Interval.label (cut_intervals hic_matrix)) 0)
    as (Hcat & _). rewrite length_map in Hcat.
  unfold get_paths_length in Hlengths. unfold self at 1 in Hlengths.
  rewrite get_all_paths_rebuilt in Hlengths. cbn [bind] in Hlengths. fold self in Hlengths.
  unfold remove_bins_by_size. unfold self at 1. rewrite get_all_paths_rebuilt.
  cbn [bind]. fold self.
  rewrite (remove_bins_to_keep_ok _ _ _ _ [] Hlengths). cbn [bind app].
  rewrite retained_paths_all; [|apply (mapM_length _ _ _ Hlengths) | assumption].
  rewrite Hcat. destruct (length (seq 0 _) =? 0)%nat; cbn [negb]; [reflexivity|].
  rewrite Hh. unfold take_rows. rewrite <- Hrows, mapM_item_seq. cbn [bind].
  unfold take_cols.
  assert (Hid : mapM (fun row => mapM (item row) (seq 0 (length (matrix hic_matrix))))
                  (matrix hic_matrix) = Ok (matrix hic_matrix)).
  { rewrite (mapM_map _ (fun row => row)); [now rewrite map_id|].
    intros row Hrow. rewrite Forall_forall in Hcols.
    rewrite Hrows, <- (Hcols row Hrow). apply mapM_item_seq. }
  rewrite Hid. cbn [bind]. rewrite Hrows, mapM_item_seq. cbn [bind].
  unfold update_matrix. rewrite record_eta. reflexivity.
Qed.

Lemma remove_bins_by_size_keeps_long_paths_witness :
  remove_bins_by_size remove_bins_example 5 = Ok remove_bins_example.
Proof.
  apply (remove_bins_by_size_keeps_long_paths _ 5 [30; 20; 10]).
  - split; [reflexivity|]. repeat constructor.
  - vm_compute. reflexivity.
  - repeat constructor.
Defined.

(** ** More on neighbour joining *)

Lemma flat_map_nil {A B} (f : A -> list B) (l : list A) :
  (forall a, In a l -> f a = []) -> flat_map f l = [].
Proof.
  induction l as [|a l IH]; intros H; [reflexivity|]. cbn [flat_map].
  rewrite (H a) by now left. apply IH. intros b Hb. apply H. now right.
Qed.

Lemma in_enumerate {A} (l : list A) (i : nat) (a : A) :
  In (i, a) (enumerate l) -> In a l.
Proof. unfold enumerate. apply in_combine_r. Qed.

(** No entry survives a threshold that no value exceeds. *)
Lemma triu_entries_below (m : matrix_t) (confidence_score : Q) :
  Forall (Forall (fun value => (value <= confidence_score)%Q)) m ->
  triu_entries m confidence_score = [].
Proof.
  intros Hall. unfold triu_entries. apply flat_map_nil.
  intros [row_id row] Hrow. apply in_enumerate in Hrow.
  rewrite Forall_forall in Hall. specialize (Hall row Hrow).
  apply flat_map_nil. intros [col_id value] Hv. apply in_enumerate in Hv.
  rewrite Forall_forall in Hall. specialize (Hall value Hv).
  unfold Qlt_bool. apply Qle_bool_iff in Hall. rewrite Hall.
  cbn [negb]. now rewrite andb_false_r.
Qed.

(** X15: when no contact of the matrix exceeds [confidence_score],
    [get_nearest_neighbors] proposes no edge: it leaves the state as it
    was and reaches the breakpoint that closes it, so that the call
    ends the way the debugger ends: ImportError without [ipdb], BdbQuit
    when the session is quit, a normal return when it is continued. *)
Theorem get_nearest_neighbors_nothing_above_threshold
    (ipdb : debugger) (self : Scaffolds) (confidence_score : Q)
    (paths : list (list nat)) :
  get_all_paths self = Ok paths ->
  Forall (Forall (fun value => (value <= confidence_score)%Q)) (matrix (hic self)) ->
  get_nearest_neighbors ipdb self confidence_score
  = (self, match ipdb with
           | NotInstalled => Raise (ImportError "ipdb")
           | Continue => Ok tt
           | Quit => Raise BdbQuit
           end).
Proof.
  intros Hpaths Hall. unfold get_nearest_neighbors.
  rewrite Hpaths, (triu_entries_below _ _ Hall).
  destruct (flanks_and_singletons paths [] []) as [flanks singletons].
  destruct ipdb; reflexivity.
Qed.

Lemma get_nearest_neighbors_nothing_above_threshold_witness :
  get_nearest_neighbors NotInstalled ring_example 9
  = (ring_example, Raise (ImportError "ipdb")).
Proof.
  apply (get_nearest_neighbors_nothing_above_threshold
           NotInstalled ring_example 9 [[0]; [1]; [2]; [3]]%nat).
  - reflexivity.
  - repeat constructor; vm_compute; discriminate.
Defined.

Lemma flanks_and_singletons_no_single (paths : list (list nat))
    (flanks singletons : list nat) :
  Forall (fun path => length path <> 1%nat) paths ->
  snd (flanks_and_singletons paths flanks singletons) = singletons.
Proof.
  revert flanks. induction paths as [|p paths IH]; intros flanks Hall;
    [reflexivity|].
  inversion Hall as [|? ? Hp Hrest]; subst. cbn [flanks_and_singletons].
  apply Nat.eqb_neq in Hp. rewrite Hp. now apply IH.
Qed.

(** Without single-bin paths the loop over the auxiliary graph only
    takes the branch whose [add_edge] sits in a try block. *)
Lemma join_loop_no_singletons (G : nx.Graph) (flanks nodes : list nat)
    (self : Scaffolds) (seen : list nat) :
  snd (join_loop G flanks [] nodes self seen) = Ok tt.
Proof.
  revert self seen. induction nodes as [|node nodes IH]; intros self seen;
    [reflexivity|].
  cbn [join_loop].
  destruct ((nx.degree G node =? 1)%nat && mem node flanks && negb (mem node seen))
    eqn:Hflank.
  - apply andb_prop in Hflank. destruct Hflank as [Hflank _].
    apply andb_prop in Hflank. destruct Hflank as [Hdeg _].
    apply Nat.eqb_eq in Hdeg. unfold nx.degree in Hdeg.
    destruct (nx.neighbors G node) as [|n0 ns]; [discriminate|].
    cbn. apply IH.
  - replace (mem node []) with false by reflexivity.
    rewrite andb_false_r. cbn [andb]. apply IH.
Qed.

(** X16: when no enumerated path is a single bin, the joining loop of
    [get_nearest_neighbors] raises nothing, for every threshold: the
    edges it proposes between path ends are inserted inside a try block
    that swallows the exception of [add_edge].  The call then reaches
    the breakpoint that closes it and ends the way the debugger ends. *)
Theorem get_nearest_neighbors_without_singletons
    (ipdb : debugger) (self : Scaffolds) (confidence_score : Q)
    (paths : list (list nat)) :
  get_all_paths self = Ok paths ->
  Forall (fun path => length path <> 1%nat) paths ->
  snd (get_nearest_neighbors ipdb self confidence_score)
  = match ipdb with
    | NotInstalled => Raise (ImportError "ipdb")
    | Continue => Ok tt
    | Quit => Raise BdbQuit
    end.
Proof.
  intros Hpaths Hall. unfold get_nearest_neighbors. rewrite Hpaths.
  assert (Hs := flanks_and_singletons_no_single paths [] [] Hall).
  destruct (flanks_and_singletons paths [] []) as [flanks singletons].
  cbn [snd] in Hs. subst singletons.
  match goal with
  | |- context [join_loop ?G ?f [] ?n ?s ?seen] =>
      assert (Hloop := join_loop_no_singletons G f n s seen);
      destruct (join_loop G f [] n s seen) as [self' outcome]
  end.
  cbn [snd] in Hloop. subst outcome. destruct ipdb; reflexivity.
Qed.

Lemma get_nearest_neighbors_without_singletons_witness :
  snd (get_nearest_neighbors Quit merge_example 0) = Raise BdbQuit.
Proof.
  apply (get_nearest_neighbors_without_singletons
           Quit merge_example 0 [[0; 1; 2; 3; 4; 5]]%nat).
  - reflexivity.
  - repeat constructor. simpl. lia.
Defined.
